(** * Verification of the transcript chunker and its orchestration
    (src/api/utils/transcript.py), and of the vector store's batch building
    and result assembly (src/api/utils/vector_store.py). *)

From Stdlib Require Import String.
From Stdlib Require Import List ZArith Lia Bool Ascii.
From Stdlib Require DecimalString DecimalNat.
Import ListNotations.
Open Scope Z_scope.
Open Scope list_scope.

(** ** Strings

    A Python [str] is modelled as a list of ASCII characters; [len] is the list
    length.  Literals are written with [s2l "..."%string]. *)

Abbreviation str := (list ascii).

Definition s2l (s : string) : str := String.list_ascii_of_string s.

Definition len (s : str) : Z := Z.of_nat (length s).

(** [str.isspace] on the ASCII range: \t \n \v \f \r (9-13), the
    separators \x1c-\x1f (28-31) and the space (32). *)
Definition is_space (c : ascii) : bool :=
  let n := nat_of_ascii c in
  ((9 <=? n) && (n <=? 13))%nat || ((28 <=? n) && (n <=? 32))%nat.

Fixpoint lstrip (s : str) : str :=
  match s with
  | [] => []
  | c :: t => if is_space c then lstrip t else s
  end.

(** [str.strip()]: drop leading and trailing whitespace. *)
Definition strip (s : str) : str := rev (lstrip (rev (lstrip s))).

Definition space : str := [" "%char].
#[global] Arguments space : simpl never.

(** ** Data model *)

(** A transcript segment [{text, start, duration}]; times are modelled as
    integers (the source uses numbers that are only added and compared). *)
Record segment := mkSegment {
  seg_text : str;
  seg_start : Z;
  seg_duration : Z
}.

(** A chunk [{text, start, duration, end}]. *)
Record chunk := mkChunk {
  ch_text : str;
  ch_start : Z;
  ch_duration : Z;
  ch_end : Z
}.

(** [sum(s["duration"] for s in segs)] *)
Definition sum_durations (segs : list segment) : Z :=
  fold_left (fun acc s => acc + seg_duration s) segs 0.

(** [segs[-1]["start"] + segs[-1]["duration"]]; the chunker never closes a
    chunk with an empty segment list (see [shape_inv_step]), so the
    default of [last] is never used. *)
Definition last_end (segs : list segment) : Z :=
  let l := last segs (mkSegment [] 0 0) in seg_start l + seg_duration l.

(** The dictionary appended to [chunks] when a chunk is closed. *)
Definition close_chunk (buf : str) (start : Z) (segs : list segment) : chunk :=
  mkChunk (strip buf) start (sum_durations segs) (last_end segs).

(** A closed chunk together with ghost data: the buffer it was closed from
    ([current_chunk_text]) and the segments folded into it
    ([current_chunk_segments]).  [chunk_segments] returns only the chunks. *)
Record closed := mkClosed {
  cl_chunk : chunk;
  cl_buffer : str;
  cl_segs : list segment
}.

(** The local variables of the loop of [chunk_segments]. *)
Record cstate := mkCstate {
  chunks : list closed;
  current_chunk_text : str;
  current_chunk_start : Z;
  current_chunk_segments : list segment
}.

(** The overlap walk:
<<
    for prev_seg in reversed(current_chunk_segments):
        if len(overlap_text) + len(prev_seg["text"]) < overlap_size:
            overlap_text = prev_seg["text"] + " " + overlap_text
            overlap_segments.insert(0, prev_seg)
        else:
            break
>>
    [rsegs] is the not yet visited part of the reversed segment list. *)
Fixpoint overlap_walk (overlap_size : Z) (rsegs : list segment)
    (overlap_text : str) (overlap_segments : list segment) : str * list segment :=
  match rsegs with
  | [] => (overlap_text, overlap_segments)
  | prev_seg :: rest =>
      if len overlap_text + len (seg_text prev_seg) <? overlap_size then
        overlap_walk overlap_size rest (seg_text prev_seg ++ space ++ overlap_text)
          (prev_seg :: overlap_segments)
      else (overlap_text, overlap_segments)
  end.

(** The size test of the loop body. *)
Definition must_close (max_chunk_size : Z) (buf segment_text : str) : bool :=
  (len buf + len segment_text + 1 >? max_chunk_size) && negb (Nat.eqb (length buf) 0).

(** One iteration of [for segment in segments:]. *)
Definition chunk_step (max_chunk_size overlap_size : Z) (st : cstate) (segment : segment)
    : cstate :=
  let segment_text := strip (seg_text segment) in
  let st' :=
    if must_close max_chunk_size (current_chunk_text st) segment_text then
      let c := close_chunk (current_chunk_text st) (current_chunk_start st)
                 (current_chunk_segments st) in
      let '(overlap_text, overlap_segments) :=
        overlap_walk overlap_size (rev (current_chunk_segments st)) [] [] in
      mkCstate (chunks st ++ [mkClosed c (current_chunk_text st) (current_chunk_segments st)])
        overlap_text
        (match overlap_segments with
         | p :: _ => seg_start p
         | [] => seg_start segment
         end)
        overlap_segments
    else st in
  mkCstate (chunks st') (current_chunk_text st' ++ space ++ segment_text)
    (current_chunk_start st') (current_chunk_segments st' ++ [segment]).

(** After the loop: [if current_chunk_text.strip(): chunks.append(...)]. *)
Definition finish (st : cstate) : list closed :=
  match strip (current_chunk_text st) with
  | [] => chunks st
  | _ :: _ =>
      chunks st ++ [mkClosed (close_chunk (current_chunk_text st) (current_chunk_start st)
                                (current_chunk_segments st))
                      (current_chunk_text st) (current_chunk_segments st)]
  end.

(** [chunk_segments] with the ghost data of each closed chunk. *)
Definition chunk_trace (segments : list segment) (max_chunk_size overlap_size : Z)
    : list closed :=
  match segments with
  | [] => []
  | s0 :: _ =>
      finish (fold_left (chunk_step max_chunk_size overlap_size) segments
                (mkCstate [] [] (seg_start s0) []))
  end.

Definition chunk_segments (segments : list segment) (max_chunk_size overlap_size : Z)
    : list chunk :=
  map cl_chunk (chunk_trace segments max_chunk_size overlap_size).

(** ** The loop as a small-step machine

    The same computation, one Python statement group per step: [MLoop] is the
    head of [for segment in segments:], [MWalk] the head of the overlap walk
    [for prev_seg in reversed(current_chunk_segments):] with the segment being
    processed, the remaining segments, the remaining reversed list, and the
    walk's [overlap_text] and [overlap_segments]. *)
Inductive mstate :=
| MLoop (st : cstate) (rest : list segment)
| MWalk (st : cstate) (cur : segment) (rest : list segment)
    (rsegs : list segment) (overlap_text : str) (overlap_segments : list segment)
| MDone (out : list chunk).

(** [current_chunk_text += " " + segment_text; current_chunk_segments.append(segment)] *)
Definition add_segment (st : cstate) (segment : segment) : cstate :=
  mkCstate (chunks st) (current_chunk_text st ++ space ++ strip (seg_text segment))
    (current_chunk_start st) (current_chunk_segments st ++ [segment]).

(** The three assignments after the overlap walk. *)
Definition seed (st : cstate) (cur : segment) (overlap_text : str)
    (overlap_segments : list segment) : cstate :=
  mkCstate (chunks st) overlap_text
    (match overlap_segments with p :: _ => seg_start p | [] => seg_start cur end)
    overlap_segments.

Definition mstep (max_chunk_size overlap_size : Z) (m : mstate) : option mstate :=
  match m with
  | MLoop st [] => Some (MDone (map cl_chunk (finish st)))
  | MLoop st (segment :: rest) =>
      if must_close max_chunk_size (current_chunk_text st) (strip (seg_text segment)) then
        let c := close_chunk (current_chunk_text st) (current_chunk_start st)
                   (current_chunk_segments st) in
        let st1 := mkCstate
                     (chunks st ++ [mkClosed c (current_chunk_text st) (current_chunk_segments st)])
                     (current_chunk_text st) (current_chunk_start st)
                     (current_chunk_segments st) in
        Some (MWalk st1 segment rest (rev (current_chunk_segments st)) [] [])
      else Some (MLoop (add_segment st segment) rest)
  | MWalk st segment rest [] ot os =>
      Some (MLoop (add_segment (seed st segment ot os) segment) rest)
  | MWalk st segment rest (prev_seg :: rs) ot os =>
      if len ot + len (seg_text prev_seg) <? overlap_size then
        Some (MWalk st segment rest rs (seg_text prev_seg ++ space ++ ot) (prev_seg :: os))
      else Some (MLoop (add_segment (seed st segment ot os) segment) rest)
  | MDone _ => None
  end.

(** Run at most [fuel] steps; a state without successor is kept. *)
Fixpoint run (max_chunk_size overlap_size : Z) (fuel : nat) (m : mstate) : mstate :=
  match fuel with
  | O => m
  | S f =>
      match mstep max_chunk_size overlap_size m with
      | None => m
      | Some m' => run max_chunk_size overlap_size f m'
      end
  end.

Definition minit (segments : list segment) : mstate :=
  match segments with
  | [] => MDone []
  | s0 :: _ => MLoop (mkCstate [] [] (seg_start s0) []) segments
  end.

(** ** [extract_video_id]

    [re.search(r"(?:v=|\/v\/|youtu\.be\/|\/embed\/)([a-zA-Z0-9_-]{11})", url)]:
    the leftmost position where one of the four alternatives (tried in order)
    is followed by eleven characters of [[a-zA-Z0-9_-]]; [group(1)] is those
    eleven characters. *)
Definition id_char (c : ascii) : bool :=
  let n := nat_of_ascii c in
  ((97 <=? n) && (n <=? 122))%nat || ((65 <=? n) && (n <=? 90))%nat
  || ((48 <=? n) && (n <=? 57))%nat || (n =? 95)%nat || (n =? 45)%nat.

(** [[a-zA-Z0-9_-]{n}] at the head of [s]. *)
Fixpoint take_id (n : nat) (s : str) : option str :=
  match n with
  | O => Some []
  | S k =>
      match s with
      | c :: t => if id_char c then option_map (cons c) (take_id k t) else None
      | [] => None
      end
  end.

Fixpoint starts_with (p s : str) : bool :=
  match p, s with
  | [], _ => true
  | a :: p', b :: s' => Ascii.eqb a b && starts_with p' s'
  | _ :: _, [] => false
  end.

Definition url_prefixes : list str :=
  [s2l "v="%string; s2l "/v/"%string; s2l "youtu.be/"%string; s2l "/embed/"%string].

(** The alternation followed by the group, at the head of [s], with
    backtracking into the next alternative when the group fails. *)
Fixpoint match_alts (alts : list str) (s : str) : option str :=
  match alts with
  | [] => None
  | a :: more =>
      if starts_with a s then
        match take_id 11 (skipn (length a) s) with
        | Some g => Some g
        | None => match_alts more s
        end
      else match_alts more s
  end.

(** [re.search]: try every start position from the left. *)
Fixpoint search_id (s : str) : option str :=
  match match_alts url_prefixes s with
  | Some g => Some g
  | None => match s with [] => None | _ :: t => search_id t end
  end.

Definition extract_video_id (url : str) : option str := search_id url.

(** ** [get_youtube_transcript] *)

(** What [YouTubeTranscriptApi().fetch(video_id).to_raw_data()] does: return
    the segments, or raise an exception whose [str(e)] is [message]. *)
Inductive fetch_outcome :=
| Fetched (segments : list segment)
| Raised (message : str).

Record fetch_result := mkFetchResult {
  success : bool;
  transcript : option str;
  segments : option (list segment);
  error : option str
}.

(** [" ".join(texts)] *)
Fixpoint join_space (l : list str) : str :=
  match l with
  | [] => []
  | [x] => x
  | x :: t => x ++ space ++ join_space t
  end.

(** [str.lower()] on ASCII. *)
Definition lower_char (c : ascii) : ascii :=
  let n := nat_of_ascii c in
  if ((65 <=? n) && (n <=? 90))%nat then ascii_of_nat (n + 32) else c.

Definition lower (s : str) : str := map lower_char s.

(** [needle in hay] *)
Fixpoint str_contains (needle hay : str) : bool :=
  starts_with needle hay || match hay with [] => false | _ :: t => str_contains needle t end.

Definition msg_invalid : str := s2l "Invalid YouTube URL. Could not extract video ID."%string.
Definition msg_disabled : str := s2l "Transcripts are disabled for this video."%string.
Definition msg_not_found : str :=
  s2l "No transcript found for this video. It may not have captions available."%string.
Definition msg_unavailable : str :=
  s2l "The video is unavailable. It may have been removed or is private."%string.
Definition msg_unexpected_prefix : str := s2l "An unexpected error occurred: "%string.

(** The [except Exception as e:] handler. *)
Definition classify_error (message : str) : str :=
  let error_msg := lower message in
  if str_contains (s2l "disabled"%string) error_msg then msg_disabled
  else if str_contains (s2l "no transcript"%string) error_msg
          || str_contains (s2l "not found"%string) error_msg then msg_not_found
  else if str_contains (s2l "unavailable"%string) error_msg then msg_unavailable
  else msg_unexpected_prefix ++ message.

Definition get_youtube_transcript (fetch : str -> fetch_outcome) (video_url : str)
    : fetch_result :=
  match extract_video_id video_url with
  | None => mkFetchResult false None None (Some msg_invalid)
  | Some video_id =>
      match fetch video_id with
      | Fetched segs =>
          mkFetchResult true (Some (join_space (map seg_text segs))) (Some segs) None
      | Raised message => mkFetchResult false None None (Some (classify_error message))
      end
  end.

(** ** [store_transcript_for_rag] *)

(** Calls made to the chunker and to the vector store, in order. *)
Inductive call :=
| CallChunk (segments : list segment) (max_chunk_size : Z)
| CallStore (video_id : option str) (chunks : list chunk) (video_url : str).

(** The two dictionary shapes the function returns: the fetch result as is, or
    the storage report. *)
Inductive rag_result :=
| RagFetch (result : fetch_result)
| RagStored (success : bool) (video_id : option str) (segments_stored : nat)
    (original_segments : nat) (error : option str).

Definition msg_store_failed : str := s2l "Failed to store in vector database"%string.

(** [store_transcript] is the vector store's method of that name; the default
    [overlap_size] of [chunk_segments] (50) applies. *)
Definition store_transcript_for_rag (fetch : str -> fetch_outcome)
    (store_transcript : option str -> list chunk -> str -> bool)
    (video_url : str) (chunk_size : Z) : rag_result * list call :=
  let result := get_youtube_transcript fetch video_url in
  if negb (success result) then (RagFetch result, [])
  else
    let video_id := extract_video_id video_url in
    (* on success [result["segments"]] is a list *)
    let segs := match segments result with Some l => l | None => [] end in
    let chunked_segments := chunk_segments segs chunk_size 50 in
    let ok := store_transcript video_id chunked_segments video_url in
    (RagStored ok video_id (if ok then length chunked_segments else 0) (length segs)
       (if ok then None else Some msg_store_failed),
     [CallChunk segs chunk_size; CallStore video_id chunked_segments video_url]).

(** ** [TranscriptVectorStore] (vector_store.py)

    The ChromaDB collection is outside the model: [collection.add] and
    [collection.query] are parameters of the methods below. *)

(** The metadata dictionary stored with each segment. *)
Record metadata := mkMetadata {
  md_video_id : str;
  md_video_url : str;
  md_start : Z;
  md_duration : Z;
  md_segment_index : nat
}.

(** [f"{i}"] for [i >= 0]: its decimal digits ([Nat.to_uint 0] is the digit 0). *)
Definition dec (i : nat) : str :=
  s2l (DecimalString.NilEmpty.string_of_uint (Nat.to_uint i)).

(** [f"{video_id}_{i}_{hex[:8]}"], [hex] being [uuid.uuid4().hex]. *)
Definition make_id (video_id : str) (i : nat) (hex : str) : str :=
  video_id ++ ["_"%char] ++ dec i ++ ["_"%char] ++ firstn 8 hex.

(** The loop [for i, segment in enumerate(segments):] of [store_transcript]
    from index [i] on, returning [(documents, metadatas, ids)].  The segments
    it receives from [store_transcript_for_rag] are chunks, whose [text],
    [start] and [duration] keys are always present.  [uuid_hex i] is the
    [hex] of the [uuid.uuid4()] drawn in iteration [i]. *)
Fixpoint build_batch (video_id : str) (video_url : option str) (uuid_hex : nat -> str)
    (i : nat) (segments : list chunk) : list str * list metadata * list str :=
  match segments with
  | [] => ([], [], [])
  | segment :: rest =>
      let '(documents, metadatas, ids) := build_batch video_id video_url uuid_hex (S i) rest in
      (ch_text segment :: documents,
       mkMetadata video_id (match video_url with Some u => u | None => [] end)
         (ch_start segment) (ch_duration segment) i :: metadatas,
       make_id video_id i (uuid_hex i) :: ids)
  end.

(** [store_transcript]: [add documents metadatas ids] is [true] when
    [self.collection.add(...)] returns and [false] when it raises; the
    method returns that. *)
Definition store_transcript (add : list str -> list metadata -> list str -> bool)
    (uuid_hex : nat -> str) (video_id : str) (segments : list chunk)
    (video_url : option str) : bool :=
  let '(documents, metadatas, ids) := build_batch video_id video_url uuid_hex 0 segments in
  add documents metadatas ids.

(** What [self.collection.query(...)] returns: one row per query text. *)
Record query_result := mkQueryResult {
  qr_documents : list (list str);
  qr_metadatas : list (list metadata);
  qr_distances : option (list (list Z))
}.

Record search_match := mkMatch {
  m_text : str;
  m_metadata : metadata;
  m_distance : option Z
}.

(** [{"video_id": video_id} if video_id else None] *)
Definition where_filter (video_id : option str) : option str :=
  match video_id with
  | Some ((_ :: _) as v) => Some v
  | _ => None
  end.

(** The dictionary built in iteration [i] of the loop of [search]; [None] is
    an [IndexError].  [results["distances"]] is false when it is [None] or
    empty. *)
Definition match_at (results : query_result) (docs0 : list str) (i : nat)
    : option search_match :=
  match nth_error docs0 i with
  | None => None
  | Some text =>
      match nth_error (qr_metadatas results) 0 with
      | None => None
      | Some metas0 =>
          match nth_error metas0 i with
          | None => None
          | Some md =>
              match qr_distances results with
              | Some (dists0 :: _) =>
                  match nth_error dists0 i with
                  | None => None
                  | Some d => Some (mkMatch text md (Some d))
                  end
              | _ => Some (mkMatch text md None)
              end
          end
      end
  end.

Fixpoint collect_matches (results : query_result) (docs0 : list str) (idx : list nat)
    : option (list search_match) :=
  match idx with
  | [] => Some []
  | i :: t =>
      match match_at results docs0 i with
      | None => None
      | Some m => option_map (cons m) (collect_matches results docs0 t)
      end
  end.

(** [for i in range(len(results["documents"][0])): matches.append(...)] *)
Definition search_matches (results : query_result) : option (list search_match) :=
  match qr_documents results with
  | [] => None
  | docs0 :: _ => collect_matches results docs0 (seq 0 (length docs0))
  end.

(** [search]: [query q n where] is [self.collection.query(query_texts=[q],
    n_results=n, where=where)]. *)
Definition search (query : str -> nat -> option str -> query_result)
    (q : str) (n_results : nat) (video_id : option str) : option (list search_match) :=
  search_matches (query q n_results (where_filter video_id)).

Definition ex_segs : list segment :=
  [mkSegment (s2l "hello"%string) 0 1; mkSegment (s2l "world"%string) 1 1; mkSegment (s2l "foo"%string) 2 1].

(** The worked example of the spec, evaluated. *)
Example ex_segs_chunks : chunk_segments ex_segs 8 0 =
  [mkChunk (s2l "hello"%string) 0 1 1; mkChunk (s2l "world"%string) 1 1 2; mkChunk (s2l "foo"%string) 2 1 3].
Proof. vm_compute. reflexivity. Qed.

(** ** String lemmas *)

Lemma len_app (a b : str) : len (a ++ b) = len a + len b.
Proof. unfold len. rewrite length_app. lia. Qed.

Lemma len_space : len space = 1.
Proof. reflexivity. Qed.

Lemma len_cons (c : ascii) (t : str) : len (c :: t) = 1 + len t.
Proof. unfold len. simpl length. lia. Qed.

Lemma len_nil : len [] = 0.
Proof. reflexivity. Qed.

Ltac len_simpl := repeat first [rewrite len_app | rewrite len_space | rewrite len_cons
                                | rewrite len_nil].

Lemma len_nonneg (a : str) : 0 <= len a.
Proof. unfold len. lia. Qed.

Lemma length_lstrip (s : str) : (length (lstrip s) <= length s)%nat.
Proof.
  induction s as [|c t IH]; simpl; [lia|].
  destruct (is_space c); simpl; lia.
Qed.

Lemma len_strip (s : str) : len (strip s) <= len s.
Proof.
  unfold len, strip. rewrite length_rev.
  pose proof (length_lstrip (rev (lstrip s))) as H1.
  rewrite length_rev in H1. pose proof (length_lstrip s). lia.
Qed.

(** [needle] occurs in [hay]. *)
Definition sub (needle hay : str) : Prop := exists x y, hay = x ++ needle ++ y.

Lemma sub_app_l n a b : sub n a -> sub n (a ++ b).
Proof. intros (x & y & ->). exists x, (y ++ b). rewrite <- !app_assoc. reflexivity. Qed.

Lemma sub_app_r n a b : sub n b -> sub n (a ++ b).
Proof. intros (x & y & ->). exists (a ++ x), y. rewrite <- !app_assoc. reflexivity. Qed.

Lemma sub_refl n : sub n n.
Proof. exists [], []. rewrite app_nil_r. reflexivity. Qed.

Lemma sub_nil n : sub n [] -> n = [].
Proof.
  intros (x & y & H). destruct x, n; try reflexivity; discriminate.
Qed.

(** The first character, if any, is not whitespace. *)
Definition head_ok (u : str) : Prop :=
  match u with [] => True | c :: _ => is_space c = false end.

Lemma lstrip_head_ok u : head_ok (lstrip u).
Proof.
  induction u as [|c t IH]; simpl; auto.
  destruct (is_space c) eqn:E; simpl; auto.
Qed.

Lemma lstrip_id u : head_ok u -> lstrip u = u.
Proof. destruct u as [|c t]; simpl; auto. intros ->. reflexivity. Qed.

Lemma lstrip_suffix u : exists p, u = p ++ lstrip u.
Proof.
  induction u as [|c t [p IH]]; simpl; [exists []; reflexivity|].
  destruct (is_space c); [exists (c :: p); simpl; rewrite <- IH|exists []]; reflexivity.
Qed.

(** [strip] leaves no whitespace at either end. *)
Lemma strip_trimmed s : lstrip (strip s) = strip s /\ lstrip (rev (strip s)) = rev (strip s).
Proof.
  unfold strip. rewrite rev_involutive. split; [|apply lstrip_id, lstrip_head_ok].
  apply lstrip_id.
  set (v := lstrip s). set (w := rev v).
  destruct (lstrip_suffix w) as [p Hp].
  assert (Hv : v = rev (lstrip w) ++ rev p).
  { rewrite <- rev_app_distr, <- Hp. unfold w. rewrite rev_involutive. reflexivity. }
  pose proof (lstrip_head_ok s) as Hh. fold v in Hh.
  destruct (rev (lstrip w)) as [|c r]; simpl; auto.
  rewrite Hv in Hh. exact Hh.
Qed.

Lemma lstrip_keep x t y :
  head_ok t -> t <> [] -> exists x', lstrip (x ++ t ++ y) = x' ++ t ++ y.
Proof.
  intros Hh Hne. induction x as [|c x IH].
  - exists []. simpl. apply lstrip_id. destruct t; [congruence|exact Hh].
  - simpl. destruct (is_space c).
    + exact IH.
    + exists (c :: x). reflexivity.
Qed.

(** A text without whitespace at its ends survives the stripping of any
    text it occurs in. *)
Lemma sub_strip t b :
  lstrip t = t -> lstrip (rev t) = rev t -> sub t b -> sub t (strip b).
Proof.
  intros H1 H2 (x & y & ->).
  destruct t as [|c t']; [exists [], (strip (x ++ y)); reflexivity|].
  set (t := c :: t') in *.
  assert (Ht : head_ok t) by (rewrite <- H1; apply lstrip_head_ok).
  assert (Hr : head_ok (rev t)) by (rewrite <- H2; apply lstrip_head_ok).
  destruct (lstrip_keep x t y Ht ltac:(discriminate)) as [x' Hx'].
  unfold strip. rewrite Hx', !rev_app_distr, <- app_assoc.
  assert (Hne : rev t <> []) by (unfold t; simpl; destruct (rev t'); discriminate).
  destruct (lstrip_keep (rev y) (rev t) (rev x') Hr Hne) as [y' Hy'].
  rewrite Hy', !rev_app_distr, !rev_involutive.
  exists x', (rev y'). rewrite app_assoc. reflexivity.
Qed.

Lemma sub_strip_seg t b : sub (strip t) b -> sub (strip t) (strip b).
Proof. destruct (strip_trimmed t). apply sub_strip; assumption. Qed.

(** ** Segment list lemmas *)

(** Start times never decrease along the list. *)
Fixpoint starts_sorted (l : list segment) : bool :=
  match l with
  | a :: ((b :: _) as t) => (seg_start a <=? seg_start b) && starts_sorted t
  | _ => true
  end.

Definition durations_nonneg (l : list segment) : bool :=
  forallb (fun s => 0 <=? seg_duration s) l.

Lemma starts_sorted_app_r l1 l2 : starts_sorted (l1 ++ l2) = true -> starts_sorted l2 = true.
Proof.
  induction l1 as [|a l1 IH]; simpl; auto.
  destruct (l1 ++ l2) eqn:E; [destruct l1; [destruct l2; [reflexivity|discriminate]|discriminate]|].
  rewrite andb_true_iff. intros [_ H]. apply IH. exact H.
Qed.

Lemma starts_sorted_app_l l1 l2 : starts_sorted (l1 ++ l2) = true -> starts_sorted l1 = true.
Proof.
  induction l1 as [|a l1 IH]; simpl; auto.
  destruct l1 as [|b l1]; auto. simpl. rewrite !andb_true_iff. intros [H1 H2].
  split; auto.
Qed.

Lemma starts_sorted_le_last p r d :
  starts_sorted (p :: r) = true -> seg_start p <= seg_start (last (p :: r) d).
Proof.
  revert p. induction r as [|b r IH]; intros p H; simpl; [lia|].
  simpl in H. apply andb_true_iff in H. destruct H as [H1 H2]. apply Z.leb_le in H1.
  specialize (IH b H2). simpl in IH. destruct r; lia.
Qed.

Lemma last_In_cons (p : segment) r d : In (last (p :: r) d) (p :: r).
Proof.
  revert p. induction r as [|b r IH]; intros p; [left; reflexivity|].
  right. apply IH.
Qed.

Lemma last_cons_default (p : segment) r d d' : last (p :: r) d = last (p :: r) d'.
Proof. revert p. induction r as [|b r IH]; intros p; [reflexivity|]. apply IH. Qed.

Lemma durations_nonneg_app l1 l2 :
  durations_nonneg (l1 ++ l2) = durations_nonneg l1 && durations_nonneg l2.
Proof. unfold durations_nonneg. apply forallb_app. Qed.

(** The overlap segments are a suffix of the closing chunk's segments. *)
Lemma overlap_walk_suffix overlap_size rs : forall ot os,
  exists q, rev rs ++ os = q ++ snd (overlap_walk overlap_size rs ot os).
Proof.
  induction rs as [|p rs IH]; intros ot os; simpl; [exists []; reflexivity|].
  destruct (len ot + len (seg_text p) <? overlap_size).
  - destruct (IH (seg_text p ++ space ++ ot) (p :: os)) as [q Hq].
    exists q. rewrite <- app_assoc. exact Hq.
  - exists (rev rs ++ [p]). reflexivity.
Qed.

(** The text the overlap walk builds from the segments [o]:
    [o[0].text + " " + o[1].text + " " + ...], with a trailing space. *)
Definition seed_text (o : list segment) : str :=
  concat (map (fun p => seg_text p ++ space) o).

(** [o] is what the overlap walk keeps of [cs]: a suffix whose seed text is
    at most [overlap_size] long, and the segment just before it fails the
    walk's test. *)
Definition overlap_of (overlap_size : Z) (cs o : list segment) : Prop :=
  (exists pre, cs = pre ++ o) /\ len (seed_text o) <= overlap_size /\
  (forall pre p, cs = pre ++ p :: o -> overlap_size <= len (seed_text o) + len (seg_text p)).

Lemma overlap_walk_spec overlap_size rs : forall ot os,
  ot = seed_text os -> len ot <= overlap_size ->
  let '(ot', os') := overlap_walk overlap_size rs ot os in
  ot' = seed_text os' /\ len ot' <= overlap_size /\ (exists q, rev rs ++ os = q ++ os') /\
  (forall pre p, rev rs ++ os = pre ++ p :: os' ->
     overlap_size <= len ot' + len (seg_text p)).
Proof.
  induction rs as [|p rs IH]; intros ot os Hot Hlen; cbn [overlap_walk rev].
  - split; [exact Hot|]. split; [exact Hlen|]. split; [exists []; reflexivity|].
    intros pre q Heq. apply (f_equal (@length segment)) in Heq.
    rewrite !length_app in Heq. simpl in Heq. lia.
  - destruct (len ot + len (seg_text p) <? overlap_size) eqn:E.
    + apply Z.ltb_lt in E.
      specialize (IH (seg_text p ++ space ++ ot) (p :: os)).
      destruct (overlap_walk overlap_size rs (seg_text p ++ space ++ ot) (p :: os)) as [ot' os'].
      rewrite <- app_assoc. apply IH.
      * rewrite Hot. unfold seed_text. cbn [map concat]. rewrite <- app_assoc. reflexivity.
      * len_simpl. lia.
    + apply Z.ltb_ge in E.
      split; [exact Hot|]. split; [exact Hlen|]. split; [exists (rev rs ++ [p]); reflexivity|].
      intros pre q Heq. rewrite <- app_assoc in Heq. simpl in Heq.
      change (p :: os) with ([p] ++ os) in Heq. change (q :: os) with ([q] ++ os) in Heq.
      rewrite !app_assoc in Heq. apply app_inv_tail in Heq. apply app_inj_tail in Heq.
      destruct Heq as [_ <-]. exact E.
Qed.

Lemma overlap_walk_seed overlap_size cs :
  0 <= overlap_size ->
  let '(ot, os) := overlap_walk overlap_size (rev cs) [] [] in
  ot = seed_text os /\ overlap_of overlap_size cs os.
Proof.
  intros Hov. pose proof (overlap_walk_spec overlap_size (rev cs) [] [] eq_refl
                            ltac:(rewrite len_nil; exact Hov)) as H.
  destruct (overlap_walk overlap_size (rev cs) [] []) as [ot os].
  rewrite rev_involutive, app_nil_r in H. destruct H as (-> & Hl & Hq & Hmax).
  split; [reflexivity|]. split; [exact Hq|]. split; [exact Hl|]. exact Hmax.
Qed.

(** ** Lemmas on the URL matcher *)

Definition valid_id (g : str) : Prop := length g = 11%nat /\ forallb id_char g = true.

(** An occurrence of the pattern in [url]: [pre], one alternative [a], the
    group [g], and the rest. *)
Definition id_match (url pre a g post : str) : Prop :=
  url = pre ++ a ++ g ++ post /\ In a url_prefixes /\ valid_id g.

Lemma starts_with_spec p s : starts_with p s = true <-> exists t, s = p ++ t.
Proof.
  revert s. induction p as [|a p IH]; intros s; simpl.
  - split; [intros _; exists s; reflexivity|reflexivity].
  - destruct s as [|b s].
    + split; [discriminate|intros [t Ht]; discriminate].
    + rewrite andb_true_iff, Ascii.eqb_eq, IH. split.
      * intros [-> [t ->]]. exists t. reflexivity.
      * intros [t Ht]. injection Ht; intros; subst. split; [reflexivity|exists t; reflexivity].
Qed.

Lemma take_id_sound n : forall s g, take_id n s = Some g ->
  exists post, s = g ++ post /\ length g = n /\ forallb id_char g = true.
Proof.
  induction n as [|n IH]; intros s g H; simpl in H.
  - injection H; intros <-. exists s. repeat split.
  - destruct s as [|c t]; [discriminate|].
    destruct (id_char c) eqn:Ec; [|discriminate].
    destruct (take_id n t) as [g'|] eqn:Et; [|discriminate].
    simpl in H. injection H; intros <-.
    destruct (IH t g' Et) as (post & -> & Hl & Hf).
    exists post. simpl. rewrite Ec, Hf, Hl. repeat split.
Qed.

Lemma take_id_complete g post : forallb id_char g = true -> take_id (length g) (g ++ post) = Some g.
Proof.
  induction g as [|c g IH]; intros H; simpl; [reflexivity|].
  simpl in H. apply andb_true_iff in H. destruct H as [Hc Hg].
  rewrite Hc, (IH Hg). reflexivity.
Qed.

Lemma skipn_length_app (a t : str) : skipn (length a) (a ++ t) = t.
Proof. induction a; simpl; auto. Qed.

Lemma match_alts_some alts s g : match_alts alts s = Some g ->
  exists a post, In a alts /\ s = a ++ g ++ post /\ valid_id g.
Proof.
  induction alts as [|a alts IH]; cbn [match_alts]; [discriminate|].
  destruct (starts_with a s) eqn:Es.
  - apply starts_with_spec in Es. destruct Es as [t ->]. rewrite skipn_length_app.
    destruct (take_id 11 t) as [g'|] eqn:Et.
    + intros H. injection H; intros <-.
      destruct (take_id_sound 11 t g' Et) as (post & -> & Hl & Hf).
      exists a, post. split; [left; reflexivity|]. split; [reflexivity|split; assumption].
    + intros H. destruct (IH H) as (a' & post & Ha & Hs & Hv).
      exists a', post. split; [right; exact Ha|split; assumption].
  - intros H. destruct (IH H) as (a' & post & Ha & Hs & Hv).
    exists a', post. split; [right; exact Ha|split; assumption].
Qed.

Lemma match_alts_none alts s : match_alts alts s = None ->
  forall a g post, In a alts -> s = a ++ g ++ post -> ~ valid_id g.
Proof.
  induction alts as [|a alts IH]; cbn [match_alts In]; intros H a' g post Ha Hs [Hl Hf];
    [exact Ha|].
  destruct (starts_with a s) eqn:Es.
  - apply starts_with_spec in Es. destruct Es as [t Ht].
    destruct (take_id 11 (skipn (length a) s)) as [g'|] eqn:Et; [discriminate|].
    destruct Ha as [Heq|Ha].
    + subst a'. rewrite Hs, skipn_length_app, <- Hl, take_id_complete in Et by exact Hf. discriminate.
    + apply (IH H a' g post Ha Hs). split; assumption.
  - destruct Ha as [Heq|Ha].
    + subst a'. assert (Hsw : starts_with a s = true) by (apply starts_with_spec; exists (g ++ post); exact Hs).
      congruence.
    + apply (IH H a' g post Ha Hs). split; assumption.
Qed.

Lemma search_id_eq s : search_id s =
  match match_alts url_prefixes s with
  | Some g => Some g
  | None => match s with [] => None | _ :: t => search_id t end
  end.
Proof. destruct s; reflexivity. Qed.

Lemma search_id_some url g : search_id url = Some g ->
  exists pre a post, id_match url pre a g post /\
    forall pre' a' g' post', id_match url pre' a' g' post' -> (length pre <= length pre')%nat.
Proof.
  revert g. induction url as [|c t IH]; intros g H; rewrite search_id_eq in H;
    destruct (match_alts url_prefixes _) as [g'|] eqn:Em.
  1,3: injection H; intros <-; destruct (match_alts_some _ _ _ Em) as (a & post & Ha & Hs & Hv);
       exists [], a, post; split; [split; [exact Hs|split; assumption]|]; intros; simpl; lia.
  - discriminate.
  - destruct (IH g H) as (pre & a & post & (Hs & Ha & Hv) & Hmin).
    exists (c :: pre), a, post. split; [split; [simpl; rewrite Hs; reflexivity|split; assumption]|].
    intros pre' a' g' post' (Hs' & Ha' & Hv').
    destruct pre' as [|c' pre'].
    + exfalso. apply (match_alts_none _ _ Em a' g' post' Ha' Hs' Hv').
    + simpl in Hs'. injection Hs'; intros Ht _. simpl.
      specialize (Hmin pre' a' g' post' (conj Ht (conj Ha' Hv'))). lia.
Qed.

Lemma search_id_none url : search_id url = None ->
  forall pre a g post, ~ id_match url pre a g post.
Proof.
  induction url as [|c t IH]; intros H pre a g post (Hs & Ha & Hv); rewrite search_id_eq in H;
    destruct (match_alts url_prefixes _) eqn:Em; try discriminate.
  - destruct pre; [|discriminate]. apply (match_alts_none _ _ Em a g post Ha Hs Hv).
  - destruct pre as [|c' pre].
    + apply (match_alts_none _ _ Em a g post Ha Hs Hv).
    + simpl in Hs. injection Hs; intros Ht _. apply (IH H pre a g post). split; [exact Ht|split; assumption].
Qed.

(** ** Loop lemmas *)

Section Loop.
Variables max_chunk_size overlap_size : Z.

Local Abbreviation step := (chunk_step max_chunk_size overlap_size).

Lemma add_segment_chunks st seg : chunks (add_segment st seg) = chunks st.
Proof. reflexivity. Qed.
Lemma add_segment_text st seg :
  current_chunk_text (add_segment st seg) = current_chunk_text st ++ space ++ strip (seg_text seg).
Proof. reflexivity. Qed.
Lemma add_segment_start st seg : current_chunk_start (add_segment st seg) = current_chunk_start st.
Proof. reflexivity. Qed.
Lemma add_segment_segs st seg :
  current_chunk_segments (add_segment st seg) = current_chunk_segments st ++ [seg].
Proof. reflexivity. Qed.
Lemma seed_chunks st cur ot os : chunks (seed st cur ot os) = chunks st.
Proof. reflexivity. Qed.
Lemma seed_cur_text st cur ot os : current_chunk_text (seed st cur ot os) = ot.
Proof. reflexivity. Qed.
Lemma seed_segs st cur ot os : current_chunk_segments (seed st cur ot os) = os.
Proof. reflexivity. Qed.
Lemma mk_chunks a b c d : chunks (mkCstate a b c d) = a.
Proof. reflexivity. Qed.
Lemma mk_text a b c d : current_chunk_text (mkCstate a b c d) = b.
Proof. reflexivity. Qed.
Lemma mk_segs a b c d : current_chunk_segments (mkCstate a b c d) = d.
Proof. reflexivity. Qed.

Create Rewrite HintDb cstate_db.
#[local] Hint Rewrite add_segment_chunks add_segment_text add_segment_start add_segment_segs
  seed_chunks seed_cur_text seed_segs mk_chunks mk_text mk_segs : cstate_db.

(** An invariant indexed by the segments still to be processed survives the
    whole loop. *)
Lemma fold_inv (Inv : cstate -> list segment -> Prop) :
  (forall st seg rest, Inv st (seg :: rest) -> Inv (step st seg) rest) ->
  forall l st, Inv st l -> Inv (fold_left step l st) [].
Proof.
  intros Hstep l. induction l as [|seg rest IH]; intros st H; simpl; auto.
Qed.

Lemma chunk_step_close st seg :
  must_close max_chunk_size (current_chunk_text st) (strip (seg_text seg)) = true ->
  step st seg =
    let '(ot, os) := overlap_walk overlap_size (rev (current_chunk_segments st)) [] [] in
    add_segment
      (seed (mkCstate (chunks st ++ [mkClosed (close_chunk (current_chunk_text st)
                 (current_chunk_start st) (current_chunk_segments st))
               (current_chunk_text st) (current_chunk_segments st)])
             (current_chunk_text st) (current_chunk_start st) (current_chunk_segments st))
          seg ot os) seg.
Proof.
  intros H. unfold chunk_step. rewrite H.
  destruct (overlap_walk _ _ _ _). reflexivity.
Qed.

Lemma chunk_step_keep st seg :
  must_close max_chunk_size (current_chunk_text st) (strip (seg_text seg)) = false ->
  step st seg = add_segment st seg.
Proof.
  intros H. unfold chunk_step. rewrite H. destruct st; reflexivity.
Qed.

(** The machine runs an overlap walk to its end. *)
Lemma run_walk st cur rest rs : forall ot os, exists n, forall k,
  run max_chunk_size overlap_size (n + k) (MWalk st cur rest rs ot os) =
  run max_chunk_size overlap_size k
    (MLoop (let '(a, b) := overlap_walk overlap_size rs ot os in
            add_segment (seed st cur a b) cur) rest).
Proof.
  induction rs as [|p rs IH]; intros ot os.
  - exists 1%nat. intros k. reflexivity.
  - simpl. destruct (len ot + len (seg_text p) <? overlap_size) eqn:E.
    + destruct (IH (seg_text p ++ space ++ ot) (p :: os)) as [n Hn].
      exists (S n). intros k. simpl. rewrite E. apply Hn.
    + exists 1%nat. intros k. simpl. rewrite E. reflexivity.
Qed.

(** The machine runs the loop to its end. *)
Lemma run_loop rest : forall st, exists n,
  run max_chunk_size overlap_size n (MLoop st rest) =
  MDone (map cl_chunk (finish (fold_left step rest st))).
Proof.
  induction rest as [|seg rest IH]; intros st.
  - exists 1%nat. reflexivity.
  - simpl fold_left.
    destruct (must_close max_chunk_size (current_chunk_text st) (strip (seg_text seg))) eqn:E.
    + rewrite (chunk_step_close st seg E).
      set (st1 := mkCstate _ _ _ _).
      destruct (run_walk st1 seg rest (rev (current_chunk_segments st)) [] []) as [n1 H1].
      destruct (overlap_walk overlap_size (rev (current_chunk_segments st)) [] []) as [ot os]
        eqn:W.
      destruct (IH (add_segment (seed st1 seg ot os) seg)) as [n2 H2].
      exists (S (n1 + n2)). simpl. rewrite E. fold st1.
      rewrite H1. exact H2.
    + rewrite (chunk_step_keep st seg E).
      destruct (IH (add_segment st seg)) as [n2 H2].
      exists (S n2). simpl. rewrite E. exact H2.
Qed.

(** The overlap text never grows past [overlap_size]. *)
Lemma overlap_walk_len rs : forall ot os,
  len ot <= overlap_size -> len (fst (overlap_walk overlap_size rs ot os)) <= overlap_size.
Proof.
  induction rs as [|p rs IH]; intros ot os H; simpl; auto.
  destruct (len ot + len (seg_text p) <? overlap_size) eqn:E; simpl; auto.
  apply Z.ltb_lt in E. apply IH. len_simpl. lia.
Qed.

(** A buffer [t] folded from the segments [cs] is within bounds when it is at
    most [max_chunk_size] long, or when [cs] is some segments [o] followed by
    one segment [X] of [segs] and [t] is the seed text of [o] (at most
    [overlap_size] long), a space and [X]'s stripped text. *)
Definition size_ok (segs : list segment) (t : str) (cs : list segment) : Prop :=
  len t <= max_chunk_size \/
  exists o X, cs = o ++ [X] /\ In X segs /\ len (seed_text o) <= overlap_size /\
    t = seed_text o ++ space ++ strip (seg_text X).

Definition size_inv (segs : list segment) (st : cstate) (rest : list segment) : Prop :=
  incl rest segs /\
  Forall (fun e => ch_text (cl_chunk e) = strip (cl_buffer e) /\
                   size_ok segs (cl_buffer e) (cl_segs e)) (chunks st) /\
  (current_chunk_text st = [] \/
   size_ok segs (current_chunk_text st) (current_chunk_segments st)) /\
  (current_chunk_text st = [] -> current_chunk_segments st = []).

Lemma size_inv_step segs st seg rest :
  0 <= overlap_size ->
  size_inv segs st (seg :: rest) -> size_inv segs (step st seg) rest.
Proof.
  intros Hov (Hincl & Hchunks & Hbuf & Hempty).
  assert (Hseg : In seg segs) by (apply Hincl; left; reflexivity).
  split; [intros x Hx; apply Hincl; right; exact Hx|].
  destruct (must_close max_chunk_size (current_chunk_text st) (strip (seg_text seg))) eqn:E.
  - rewrite (chunk_step_close st seg E).
    assert (Hne : current_chunk_text st <> []).
    { intros Hn. unfold must_close in E. rewrite Hn in E. simpl in E.
      rewrite andb_false_r in E. discriminate E. }
    pose proof (overlap_walk_seed overlap_size (current_chunk_segments st) Hov) as Hw.
    destruct (overlap_walk overlap_size (rev (current_chunk_segments st)) [] []) as [ot os].
    destruct Hw as (Hot & _ & Hl & _).
    autorewrite with cstate_db.
    split; [|split].
    + apply Forall_app. split; [exact Hchunks|]. constructor; [|constructor].
      split; [reflexivity|]. destruct Hbuf as [Hn|Hok]; [contradiction|exact Hok].
    + right. right. exists os, seg. rewrite Hot.
      split; [reflexivity|]. split; [exact Hseg|]. split; [exact Hl|reflexivity].
    + intros Hn. apply (f_equal (@length ascii)) in Hn. rewrite !length_app in Hn.
      simpl in Hn. lia.
  - rewrite (chunk_step_keep st seg E). autorewrite with cstate_db.
    split; [exact Hchunks|]. split.
    + right. unfold must_close in E. apply andb_false_iff in E. destruct E as [E|E].
      * left. rewrite Z.gtb_ltb, Z.ltb_ge in E. len_simpl. lia.
      * right. apply negb_false_iff, Nat.eqb_eq, length_zero_iff_nil in E.
        rewrite (Hempty E), E. exists [], seg.
        split; [reflexivity|]. split; [exact Hseg|]. split; [exact Hov|reflexivity].
    + intros Hn. apply (f_equal (@length ascii)) in Hn. rewrite !length_app in Hn.
      simpl in Hn. lia.
Qed.

(** Every chunk of the trace has the stripped buffer as its text, and that
    buffer is within bounds for the chunk's folded segments. *)
Lemma trace_size_ok segs :
  0 <= overlap_size ->
  Forall (fun e => ch_text (cl_chunk e) = strip (cl_buffer e) /\
                   size_ok segs (cl_buffer e) (cl_segs e))
    (chunk_trace segs max_chunk_size overlap_size).
Proof.
  intros Hov. unfold chunk_trace.
  destruct segs as [|s0 rest0] eqn:Hsegs; [constructor|]. rewrite <- Hsegs.
  assert (H : size_inv segs (fold_left step segs (mkCstate [] [] (seg_start s0) [])) []).
  { apply (fold_inv (size_inv segs)); [intros; apply size_inv_step; auto|].
    split; [apply incl_refl|]. split; [constructor|].
    split; [left; reflexivity|intros _; reflexivity]. }
  destruct H as (_ & Hchunks & Hbuf & _).
  unfold finish. destruct (strip (current_chunk_text _)) eqn:Es; [exact Hchunks|].
  apply Forall_app. split; [exact Hchunks|]. constructor; [|constructor].
  split; [reflexivity|]. destruct Hbuf as [Hn|Hok]; [|exact Hok].
  cbn [cl_buffer]. rewrite Hn in Es. discriminate Es.
Qed.

Definition chunk_texts (l : list closed) : str := concat (map (fun e => ch_text (cl_chunk e)) l).

Lemma chunk_texts_app l e : chunk_texts (l ++ [e]) = chunk_texts l ++ ch_text (cl_chunk e).
Proof. unfold chunk_texts. rewrite map_app, concat_app. simpl. rewrite app_nil_r. reflexivity. Qed.

(** Every segment is still to come, or its stripped text is in a closed chunk
    or in the buffer. *)
Definition cover_inv (segs : list segment) (st : cstate) (rest : list segment) : Prop :=
  forall s, In s segs ->
    In s rest \/ sub (strip (seg_text s)) (chunk_texts (chunks st)) \/
    sub (strip (seg_text s)) (current_chunk_text st).

Lemma cover_inv_step segs st seg rest :
  cover_inv segs st (seg :: rest) -> cover_inv segs (step st seg) rest.
Proof.
  intros Hinv s Hs. destruct (Hinv s Hs) as [[->|Hr]|[Hc|Hb]].
  - right. right.
    destruct (must_close max_chunk_size (current_chunk_text st) (strip (seg_text s))) eqn:E.
    + rewrite (chunk_step_close st s E).
      destruct (overlap_walk _ _ _ _) as [ot os]. cbn [add_segment seed chunks current_chunk_text].
      apply sub_app_r, sub_app_r, sub_refl.
    + rewrite (chunk_step_keep st s E). cbn [add_segment seed chunks current_chunk_text]. apply sub_app_r, sub_app_r, sub_refl.
  - left. exact Hr.
  - right. left.
    destruct (must_close max_chunk_size (current_chunk_text st) (strip (seg_text seg))) eqn:E.
    + rewrite (chunk_step_close st seg E).
      destruct (overlap_walk _ _ _ _) as [ot os]. cbn [add_segment seed chunks current_chunk_text].
      rewrite chunk_texts_app. apply sub_app_l. exact Hc.
    + rewrite (chunk_step_keep st seg E). exact Hc.
  - destruct (must_close max_chunk_size (current_chunk_text st) (strip (seg_text seg))) eqn:E.
    + right. left. rewrite (chunk_step_close st seg E).
      destruct (overlap_walk _ _ _ _) as [ot os]. cbn [add_segment seed chunks current_chunk_text].
      rewrite chunk_texts_app. apply sub_app_r. cbn [add_segment seed chunks current_chunk_text]. apply sub_strip_seg. exact Hb.
    + right. right. rewrite (chunk_step_keep st seg E). cbn [add_segment seed chunks current_chunk_text]. apply sub_app_l. exact Hb.
Qed.

(** A closed chunk is [close_chunk] of its buffer, the start of its first
    segment and its segments, and it has at least one segment. *)
Definition well_closed (e : closed) : Prop :=
  exists p r, cl_segs e = p :: r /\ cl_chunk e = close_chunk (cl_buffer e) (seg_start p) (cl_segs e).

Definition shape_inv (st : cstate) (rest : list segment) : Prop :=
  Forall well_closed (chunks st) /\
  (current_chunk_segments st = [] -> current_chunk_text st = [] /\
     forall s r, rest = s :: r -> current_chunk_start st = seg_start s) /\
  (forall p r, current_chunk_segments st = p :: r -> current_chunk_start st = seg_start p).

Lemma shape_inv_step st seg rest :
  shape_inv st (seg :: rest) -> shape_inv (step st seg) rest.
Proof.
  intros (Hw & Hnil & Hcons).
  destruct (must_close max_chunk_size (current_chunk_text st) (strip (seg_text seg))) eqn:E.
  - rewrite (chunk_step_close st seg E).
    assert (Hne : current_chunk_segments st <> []).
    { intros Hc. destruct (Hnil Hc) as [Ht _]. unfold must_close in E. rewrite Ht in E.
      rewrite andb_true_iff in E. destruct E as [_ E]. discriminate. }
    destruct (current_chunk_segments st) as [|p r] eqn:Hcs; [congruence|].
    destruct (overlap_walk _ _ _ _) as [ot os].
    cbn [add_segment seed chunks current_chunk_segments current_chunk_start]. split; [|split].
    + apply Forall_app. split; auto. constructor; auto.
      exists p, r. split; [reflexivity|]. cbn [cl_chunk cl_buffer cl_segs].
      rewrite (Hcons p r eq_refl). reflexivity.
    + intros Hc. destruct os; discriminate.
    + intros p' r' Hc. destruct os as [|q os]; simpl in Hc; injection Hc; intros; subst; reflexivity.
  - rewrite (chunk_step_keep st seg E). unfold add_segment.
    cbn [chunks current_chunk_segments current_chunk_start current_chunk_text].
    split; [exact Hw|split].
    + intros Hc. destruct (current_chunk_segments st); discriminate.
    + intros p r Hc. destruct (current_chunk_segments st) as [|q l] eqn:Hcs.
      * simpl in Hc. injection Hc; intros; subst. apply (proj2 (Hnil eq_refl) p rest eq_refl).
      * simpl in Hc. injection Hc; intros; subst. apply (Hcons p l eq_refl).
Qed.

(** Under sorted input with non-negative durations, every folded segment list
    is sorted with non-negative durations. *)
Definition order_inv (st : cstate) (rest : list segment) : Prop :=
  Forall (fun e => starts_sorted (cl_segs e) && durations_nonneg (cl_segs e) = true) (chunks st) /\
  starts_sorted (current_chunk_segments st ++ rest) = true /\
  durations_nonneg (current_chunk_segments st ++ rest) = true.

Lemma order_inv_step st seg rest :
  order_inv st (seg :: rest) -> order_inv (step st seg) rest.
Proof.
  intros (Hc & Hs & Hd).
  destruct (must_close max_chunk_size (current_chunk_text st) (strip (seg_text seg))) eqn:E.
  - rewrite (chunk_step_close st seg E).
    destruct (overlap_walk_suffix overlap_size (rev (current_chunk_segments st)) [] [])
      as [q Hq].
    rewrite rev_involutive, app_nil_r in Hq.
    destruct (overlap_walk _ _ _ _) as [ot os]. simpl in Hq.
    unfold order_inv; autorewrite with cstate_db. split; [|split].
    + apply Forall_app. split; auto. constructor; auto. cbn [cl_segs].
      rewrite durations_nonneg_app in Hd. apply andb_true_iff in Hd.
      apply andb_true_iff. split; [|tauto]. apply (starts_sorted_app_l _ _ Hs).
    + rewrite <- app_assoc. apply (starts_sorted_app_r q). rewrite app_assoc, <- Hq. exact Hs.
    + rewrite <- app_assoc. rewrite Hq, <- app_assoc, durations_nonneg_app in Hd.
      apply andb_true_iff in Hd. tauto.
  - rewrite (chunk_step_keep st seg E). unfold order_inv; autorewrite with cstate_db. rewrite <- app_assoc. split; auto.
Qed.

(** [e2] is the chunk closed right after [e1]: it begins with an overlap
    seed taken from [e1]'s segments. *)
Definition seeded (e1 e2 : closed) : Prop :=
  exists o rest b, cl_segs e2 = o ++ rest /\ rest <> [] /\
    cl_buffer e2 = seed_text o ++ b /\ ch_text (cl_chunk e2) = strip (cl_buffer e2) /\
    overlap_of overlap_size (cl_segs e1) o.

(** The open chunk of [st] begins with an overlap seed taken from [e]. *)
Definition open_seeded (e : closed) (st : cstate) : Prop :=
  exists o rest b, current_chunk_segments st = o ++ rest /\ rest <> [] /\
    current_chunk_text st = seed_text o ++ b /\ overlap_of overlap_size (cl_segs e) o.

Fixpoint chain (l : list closed) : Prop :=
  match l with
  | a :: ((b :: _) as t) => seeded a b /\ chain t
  | _ => True
  end.

Lemma chain_snoc l e :
  chain l -> (forall l' x, l = l' ++ [x] -> seeded x e) -> chain (l ++ [e]).
Proof.
  induction l as [|a l IH]; intros Hc H; simpl; auto.
  destruct l as [|b l].
  - split; [apply (H []); reflexivity|exact I].
  - destruct Hc as [Hab Hc]. split; [exact Hab|].
    apply IH; [exact Hc|]. intros l' x Hl. apply (H (a :: l')). rewrite Hl. reflexivity.
Qed.

Lemma chain_nth l : chain l ->
  forall i a b, nth_error l i = Some a -> nth_error l (S i) = Some b -> seeded a b.
Proof.
  induction l as [|x l IH]; intros Hc i a b Ha Hb; [destruct i; discriminate|].
  destruct l as [|y l]; [destruct i as [|[|i]]; discriminate|].
  destruct Hc as [Hxy Hc]. destruct i as [|i].
  - simpl in Ha, Hb. injection Ha; injection Hb; intros; subst. exact Hxy.
  - apply (IH Hc i); assumption.
Qed.

Definition link_inv (st : cstate) (rest : list segment) : Prop :=
  chain (chunks st) /\ forall l e, chunks st = l ++ [e] -> open_seeded e st.

Lemma close_seeded st e :
  open_seeded e st ->
  seeded e (mkClosed (close_chunk (current_chunk_text st) (current_chunk_start st)
                        (current_chunk_segments st))
              (current_chunk_text st) (current_chunk_segments st)).
Proof.
  intros (o & r & b & H1 & H2 & H3 & H4). exists o, r, b.
  split; [exact H1|]. split; [exact H2|]. split; [exact H3|]. split; [reflexivity|exact H4].
Qed.

Lemma link_inv_step st seg rest :
  0 <= overlap_size -> link_inv st (seg :: rest) -> link_inv (step st seg) rest.
Proof.
  intros Hov (Hc & Hl).
  destruct (must_close max_chunk_size (current_chunk_text st) (strip (seg_text seg))) eqn:E.
  - rewrite (chunk_step_close st seg E).
    pose proof (overlap_walk_seed overlap_size (current_chunk_segments st) Hov) as W.
    destruct (overlap_walk _ _ _ _) as [ot os]. destruct W as [-> Wo].
    unfold link_inv. autorewrite with cstate_db. split.
    + apply chain_snoc; [exact Hc|]. intros l' x Hx. apply close_seeded. apply (Hl l' x Hx).
    + intros l e He. apply app_inj_tail in He. destruct He as [_ <-].
      exists os, [seg], (space ++ strip (seg_text seg)). autorewrite with cstate_db.
      split; [reflexivity|]. split; [discriminate|]. split; [reflexivity|]. exact Wo.
  - rewrite (chunk_step_keep st seg E). unfold link_inv. autorewrite with cstate_db.
    split; [exact Hc|]. intros l e He.
    destruct (Hl l e He) as (o & r & b & H1 & H2 & H3 & H4).
    exists o, (r ++ [seg]), (b ++ space ++ strip (seg_text seg)). autorewrite with cstate_db.
    rewrite H1, H3, <- !app_assoc. split; [reflexivity|]. split; [|split; [reflexivity|exact H4]].
    destruct r; discriminate.
Qed.

End Loop.

(** ** Further loop lemmas *)

(** The text of a buffer built from [w] alone: [" " + s.strip()] for each
    segment [s] of [w]. *)
Definition buf_of (w : list segment) : str :=
  concat (map (fun s => space ++ strip (seg_text s)) w).

Lemma buf_of_app w1 w2 : buf_of (w1 ++ w2) = buf_of w1 ++ buf_of w2.
Proof. unfold buf_of. rewrite map_app, concat_app. reflexivity. Qed.

Lemma buf_of_one s : buf_of [s] = space ++ strip (seg_text s).
Proof. unfold buf_of. simpl. rewrite app_nil_r. reflexivity. Qed.

Lemma lstrip_nil_iff u : lstrip u = [] <-> forallb is_space u = true.
Proof.
  induction u as [|c t IH]; simpl; [tauto|].
  destruct (is_space c); simpl; [exact IH|split; discriminate].
Qed.

(** [s.strip()] is empty exactly when [s] is all whitespace. *)
Lemma strip_nil_iff u : strip u = [] <-> forallb is_space u = true.
Proof.
  rewrite <- lstrip_nil_iff. unfold strip. split.
  - intros H. apply (f_equal (@rev ascii)) in H. rewrite rev_involutive in H. simpl in H.
    apply lstrip_nil_iff in H. rewrite <- (lstrip_id (lstrip u) (lstrip_head_ok u)).
    apply lstrip_nil_iff. rewrite forallb_forall in H |- *. intros x Hx.
    apply H. apply in_rev. rewrite rev_involutive. exact Hx.
  - intros ->. reflexivity.
Qed.

Lemma strip_buf_of_nil w :
  strip (buf_of w) = [] -> Forall (fun s => strip (seg_text s) = []) w.
Proof.
  rewrite strip_nil_iff. induction w as [|s w IH]; intros H; constructor.
  - change (s :: w) with ([s] ++ w) in H. rewrite buf_of_app, buf_of_one, !forallb_app in H.
    apply andb_true_iff in H. destruct H as [H _]. apply andb_true_iff in H. destruct H as [_ H].
    rewrite <- (proj1 (strip_trimmed (seg_text s))).
    apply lstrip_nil_iff. exact H.
  - apply IH. change (s :: w) with ([s] ++ w) in H. rewrite buf_of_app, forallb_app in H.
    apply andb_true_iff in H. tauto.
Qed.

Lemma nth_error_snoc_pair {A} (l : list A) x i a b :
  nth_error (l ++ [x]) i = Some a -> nth_error (l ++ [x]) (S i) = Some b ->
  (nth_error l i = Some a /\ nth_error l (S i) = Some b) \/ (b = x /\ exists l', l = l' ++ [a]).
Proof.
  intros Ha Hb. destruct (Nat.lt_ge_cases (S i) (length l)) as [Hlt|Hge].
  - left. rewrite nth_error_app1 in Ha, Hb by lia. split; assumption.
  - right. rewrite nth_error_app2 in Hb by lia.
    destruct (S i - length l)%nat as [|k] eqn:Ek; [|destruct k; discriminate].
    simpl in Hb. injection Hb; intros ->. split; [reflexivity|].
    rewrite nth_error_app1 in Ha by lia.
    destruct (nth_error_split l i Ha) as (l1 & l2 & -> & Hl1).
    rewrite length_app in Hge. simpl in Hge.
    destruct l2; [exists l1; reflexivity|simpl in Hge; lia].
Qed.

Lemma sorted_head_le x l y :
  starts_sorted (x :: l) = true -> In y (x :: l) -> seg_start x <= seg_start y.
Proof.
  revert x. induction l as [|b l IH]; intros x Hs [<-|Hy]; try lia.
  - destruct Hy.
  - simpl in Hs. apply andb_true_iff in Hs. destruct Hs as [H1 H2]. apply Z.leb_le in H1.
    destruct Hy as [<-|Hy]; [lia|]. specialize (IH b H2 (or_intror Hy)). lia.
Qed.

(** The chunk closed after [e] has the segments [w]: a suffix [o] of [e]'s
    segments followed by the segments [r] that come right after [e]'s in the
    input. *)
Definition next_run (segs : list segment) (e : closed) (w : list segment) : Prop :=
  exists a o r post q, segs = a ++ cl_segs e ++ r ++ post /\ w = o ++ r /\ cl_segs e = q ++ o.

Section Runs.
Variables max_chunk_size overlap_size : Z.

Local Abbreviation step := (chunk_step max_chunk_size overlap_size).

Create Rewrite HintDb run_db.
#[local] Hint Rewrite add_segment_chunks add_segment_text add_segment_start add_segment_segs
  seed_chunks seed_cur_text seed_segs mk_chunks mk_text mk_segs : run_db.

Definition nonempty (t : str) : nat := if Nat.eqb (length t) 0 then 0 else 1.

(** Chunks closed so far, plus one for a non-empty buffer, never outnumber the
    segments processed. *)
Definition count_inv (n : nat) (st : cstate) (rest : list segment) : Prop :=
  (length (chunks st) + nonempty (current_chunk_text st) + length rest <= n)%nat.

Lemma nonempty_app_space a b : nonempty (a ++ space ++ b) = 1%nat.
Proof.
  unfold nonempty. rewrite !length_app. unfold space. simpl length.
  rewrite Nat.add_succ_r. reflexivity.
Qed.

Lemma count_inv_step n st seg rest :
  count_inv n st (seg :: rest) -> count_inv n (step st seg) rest.
Proof.
  unfold count_inv. intros H. simpl length in H.
  destruct (must_close max_chunk_size (current_chunk_text st) (strip (seg_text seg))) eqn:E.
  - rewrite (chunk_step_close max_chunk_size overlap_size st seg E).
    destruct (overlap_walk _ _ _ _) as [ot os]. autorewrite with run_db.
    rewrite nonempty_app_space, length_app. simpl length.
    unfold must_close in E. apply andb_true_iff in E. destruct E as [_ E].
    apply negb_true_iff in E. unfold nonempty in H. rewrite E in H. lia.
  - rewrite (chunk_step_keep max_chunk_size overlap_size st seg E). autorewrite with run_db.
    rewrite nonempty_app_space. lia.
Qed.

(** Where the segments of the open chunk and of every closed chunk lie in
    the input, and how consecutive chunks' segments follow each other. *)
Definition run_inv (segs : list segment) (st : cstate) (rest : list segment) : Prop :=
  (exists a, segs = a ++ current_chunk_segments st ++ rest) /\
  (forall e, In e (chunks st) -> exists a b, segs = a ++ cl_segs e ++ b) /\
  (forall i e1 e2, nth_error (chunks st) i = Some e1 -> nth_error (chunks st) (S i) = Some e2 ->
     next_run segs e1 (cl_segs e2)) /\
  (forall l e, chunks st = l ++ [e] ->
     exists a o r q, segs = a ++ cl_segs e ++ r ++ rest /\
       current_chunk_segments st = o ++ r /\ cl_segs e = q ++ o).

Lemma run_inv_close segs l e cur rest :
  (exists a, segs = a ++ cur ++ rest) ->
  (forall e', In e' l -> exists a b, segs = a ++ cl_segs e' ++ b) ->
  (forall i e1 e2, nth_error l i = Some e1 -> nth_error l (S i) = Some e2 ->
     next_run segs e1 (cl_segs e2)) ->
  (forall l' e', l = l' ++ [e'] ->
     exists a o r q, segs = a ++ cl_segs e' ++ r ++ rest /\ cur = o ++ r /\ cl_segs e' = q ++ o) ->
  cl_segs e = cur ->
  (forall e', In e' (l ++ [e]) -> exists a b, segs = a ++ cl_segs e' ++ b) /\
  (forall i e1 e2, nth_error (l ++ [e]) i = Some e1 -> nth_error (l ++ [e]) (S i) = Some e2 ->
     next_run segs e1 (cl_segs e2)).
Proof.
  intros [a Ha] Hin Hnext Hlast He. split.
  - intros e' He'. apply in_app_or in He'. destruct He' as [He'|[<-|[]]]; [apply Hin; exact He'|].
    exists a, rest. rewrite He. exact Ha.
  - intros i e1 e2 H1 H2. destruct (nth_error_snoc_pair l e i e1 e2 H1 H2) as [[H1' H2']|[-> [l' Hl']]].
    + apply (Hnext i); assumption.
    + destruct (Hlast l' e1 Hl') as (a' & o & r & q & Hs & Hc & Hq).
      exists a', o, r, rest, q. rewrite He. split; [exact Hs|split; assumption].
Qed.

Lemma run_inv_step segs st seg rest :
  run_inv segs st (seg :: rest) -> run_inv segs (step st seg) rest.
Proof.
  intros (Hcur & Hin & Hnext & Hlast).
  destruct (must_close max_chunk_size (current_chunk_text st) (strip (seg_text seg))) eqn:E.
  - rewrite (chunk_step_close max_chunk_size overlap_size st seg E).
    destruct (overlap_walk_suffix overlap_size (rev (current_chunk_segments st)) [] [])
      as [q Hq].
    rewrite rev_involutive, app_nil_r in Hq.
    destruct (overlap_walk _ _ _ _) as [ot os]. simpl in Hq.
    destruct (run_inv_close segs (chunks st)
                (mkClosed (close_chunk (current_chunk_text st) (current_chunk_start st)
                             (current_chunk_segments st))
                   (current_chunk_text st) (current_chunk_segments st))
                (current_chunk_segments st) (seg :: rest) Hcur Hin Hnext Hlast eq_refl)
      as [Hin' Hnext'].
    destruct Hcur as [a Ha].
    unfold run_inv. autorewrite with run_db. split; [|split; [exact Hin'|split; [exact Hnext'|]]].
    + exists (a ++ q). rewrite Ha, Hq, <- !app_assoc. reflexivity.
    + intros l e He. apply app_inj_tail in He. destruct He as [_ <-].
      exists a, os, [seg], q. cbn [cl_segs]. split; [|split; [reflexivity|exact Hq]].
      rewrite Ha. reflexivity.
  - rewrite (chunk_step_keep max_chunk_size overlap_size st seg E).
    unfold run_inv. autorewrite with run_db.
    split; [|split; [exact Hin|split; [exact Hnext|]]].
    + destruct Hcur as [a Ha]. exists a. rewrite Ha, <- !app_assoc. reflexivity.
    + intros l e He. destruct (Hlast l e He) as (a & o & r & q & Hs & Hc & Hq).
      exists a, o, (r ++ [seg]), q. rewrite Hc, Hs, <- !app_assoc.
      split; [reflexivity|split; [reflexivity|exact Hq]].
Qed.

(** Without overlap the closed chunks' segments, then the open chunk's, then
    the unprocessed ones, make up the input; each buffer is [buf_of] its
    segments. *)
Definition part_inv (segs : list segment) (st : cstate) (rest : list segment) : Prop :=
  segs = concat (map cl_segs (chunks st)) ++ current_chunk_segments st ++ rest /\
  Forall (fun e => cl_buffer e = buf_of (cl_segs e)) (chunks st) /\
  current_chunk_text st = buf_of (current_chunk_segments st).

Lemma overlap_walk_nonpos rs ot os :
  overlap_size <= 0 -> len ot = 0 -> overlap_walk overlap_size rs ot os = (ot, os).
Proof.
  intros Hov Hot. destruct rs as [|p rs]; [reflexivity|]. simpl.
  pose proof (len_nonneg (seg_text p)).
  destruct (len ot + len (seg_text p) <? overlap_size) eqn:E; [apply Z.ltb_lt in E; lia|reflexivity].
Qed.

Lemma part_inv_step segs st seg rest :
  overlap_size <= 0 -> part_inv segs st (seg :: rest) -> part_inv segs (step st seg) rest.
Proof.
  intros Hov (Hs & Hb & Ht).
  destruct (must_close max_chunk_size (current_chunk_text st) (strip (seg_text seg))) eqn:E.
  - rewrite (chunk_step_close max_chunk_size overlap_size st seg E).
    rewrite (overlap_walk_nonpos _ [] [] Hov eq_refl).
    unfold part_inv. autorewrite with run_db. split; [|split].
    + rewrite map_app, concat_app. simpl. rewrite app_nil_r, Hs, <- !app_assoc. reflexivity.
    + apply Forall_app. split; [exact Hb|]. constructor; [exact Ht|constructor].
    + rewrite !app_nil_l, buf_of_one. reflexivity.
  - rewrite (chunk_step_keep max_chunk_size overlap_size st seg E).
    unfold part_inv. autorewrite with run_db. split; [|split; [exact Hb|]].
    + rewrite Hs, <- !app_assoc. reflexivity.
    + rewrite Ht, buf_of_app, buf_of_one. reflexivity.
Qed.

(** While the whole input fits, nothing is closed and the buffer is [buf_of]
    the segments processed. *)
Lemma fold_fits start rest : forall done,
  len (buf_of (done ++ rest)) <= max_chunk_size ->
  fold_left step rest (mkCstate [] (buf_of done) start done) =
  mkCstate [] (buf_of (done ++ rest)) start (done ++ rest).
Proof.
  induction rest as [|seg rest IH]; intros done H; simpl fold_left.
  - rewrite app_nil_r. reflexivity.
  - assert (E : must_close max_chunk_size (buf_of done) (strip (seg_text seg)) = false).
    { unfold must_close. apply andb_false_iff. left.
      rewrite Z.gtb_ltb. apply Z.ltb_ge.
      change (seg :: rest) with ([seg] ++ rest) in H.
      rewrite !buf_of_app, buf_of_one in H.
      rewrite !len_app, len_space in H. pose proof (len_nonneg (buf_of rest)). lia. }
    rewrite (chunk_step_keep max_chunk_size overlap_size (mkCstate [] (buf_of done) start done) seg E). unfold add_segment.
    autorewrite with run_db.
    replace (buf_of done ++ space ++ strip (seg_text seg)) with (buf_of (done ++ [seg]))
      by (rewrite buf_of_app, buf_of_one; reflexivity).
    rewrite IH; [rewrite <- app_assoc; reflexivity|].
    rewrite <- app_assoc. exact H.
Qed.

End Runs.

Lemma finish_cases st :
  (finish st = chunks st /\ strip (current_chunk_text st) = []) \/
  finish st = chunks st ++ [mkClosed (close_chunk (current_chunk_text st) (current_chunk_start st)
                                 (current_chunk_segments st))
                          (current_chunk_text st) (current_chunk_segments st)].
Proof.
  unfold finish. destruct (strip (current_chunk_text st)); [left; split; reflexivity|right; reflexivity].
Qed.

(** Every chunk is closed from its buffer and a non-empty segment list (the
    first part of the proof of C4). *)
Lemma trace_well_closed segs mx ov : Forall well_closed (chunk_trace segs mx ov).
Proof.
  unfold chunk_trace. destruct segs as [|s0 rest0] eqn:Hsegs; [constructor|].
  rewrite <- Hsegs.
  set (fin := fold_left (chunk_step mx ov) segs (mkCstate [] [] (seg_start s0) [])).
  assert (Hsh : shape_inv fin []).
  { apply (fold_inv mx ov shape_inv); [intros; apply shape_inv_step; auto|].
    split; [constructor|]. split; [|intros p r Hc; discriminate].
    intros _. split; [reflexivity|]. intros s r Hsr. rewrite Hsegs in Hsr.
    injection Hsr; intros; subst; reflexivity. }
  destruct Hsh as (Hw & Hnil & Hcons).
  unfold finish. destruct (strip (current_chunk_text fin)) eqn:Es; auto.
  apply Forall_app. split; auto. constructor; auto.
  destruct (current_chunk_segments fin) as [|p r] eqn:Hcs.
  - destruct (Hnil eq_refl) as [Ht _]. rewrite Ht in Es. discriminate.
  - exists p, r. split; [reflexivity|]. cbn [cl_chunk cl_buffer cl_segs].
    rewrite (Hcons p r eq_refl). reflexivity.
Qed.

Lemma trace_length segs mx ov : (length (chunk_trace segs mx ov) <= length segs)%nat.
Proof.
  unfold chunk_trace. destruct segs as [|s0 rest0] eqn:Hsegs; [simpl; lia|].
  rewrite <- Hsegs.
  set (fin := fold_left (chunk_step mx ov) segs (mkCstate [] [] (seg_start s0) [])).
  assert (H : count_inv (length segs) fin []).
  { apply (fold_inv mx ov (count_inv (length segs))); [intros; apply count_inv_step; auto|].
    unfold count_inv, nonempty. simpl. lia. }
  unfold count_inv, nonempty in H. simpl length in H.
  unfold finish. destruct (strip (current_chunk_text fin)) as [|c t] eqn:Es; [lia|].
  rewrite length_app. simpl length.
  destruct (Nat.eqb_spec (length (current_chunk_text fin)) 0) as [E|E]; [|lia].
  apply length_zero_iff_nil in E. rewrite E in Es. simpl in Es. discriminate.
Qed.

Lemma trace_runs segs mx ov :
  (forall e, In e (chunk_trace segs mx ov) -> exists a b, segs = a ++ cl_segs e ++ b) /\
  (forall i e1 e2, nth_error (chunk_trace segs mx ov) i = Some e1 ->
     nth_error (chunk_trace segs mx ov) (S i) = Some e2 -> next_run segs e1 (cl_segs e2)).
Proof.
  unfold chunk_trace. destruct segs as [|s0 rest0] eqn:Hsegs.
  { split; [intros e []|intros [|i] ? ? H; discriminate]. }
  rewrite <- Hsegs.
  set (fin := fold_left (chunk_step mx ov) segs (mkCstate [] [] (seg_start s0) [])).
  assert (H : run_inv segs fin []).
  { apply (fold_inv mx ov (run_inv segs)); [intros; apply run_inv_step; auto|].
    split; [exists []; reflexivity|]. split; [intros e []|].
    split; [intros [|i] ? ? Hi; discriminate|]. intros l e He. destruct l; discriminate. }
  destruct H as (Hcur & Hin & Hnext & Hlast).
  destruct (finish_cases fin) as [[-> _]| ->]; [split; assumption|].
  rewrite app_nil_r in Hcur.
  apply (run_inv_close segs (chunks fin) _ (current_chunk_segments fin) []);
    try rewrite app_nil_r; auto.
Qed.

(** A closed chunk's fields, read off its segments. *)
Lemma well_closed_fields e : well_closed e ->
  exists p r, cl_segs e = p :: r /\ ch_text (cl_chunk e) = strip (cl_buffer e) /\
    ch_start (cl_chunk e) = seg_start p /\ ch_duration (cl_chunk e) = sum_durations (cl_segs e) /\
    ch_end (cl_chunk e) = last_end (cl_segs e).
Proof.
  intros (p & r & Hs & Hc). exists p, r. rewrite Hc. cbn [ch_text ch_start ch_duration ch_end close_chunk].
  repeat split; assumption || reflexivity.
Qed.

(** ** Vector store lemmas *)

Lemma dec_digits i : forall c, In c (dec i) -> c <> "_"%char.
Proof.
  unfold dec, s2l. generalize (Nat.to_uint i) as d.
  induction d; simpl; intros c H; try contradiction;
    destruct H as [<-|H]; try discriminate; auto.
Qed.

Lemma dec_inj i j : dec i = dec j -> i = j.
Proof.
  unfold dec, s2l. intros H.
  apply (f_equal string_of_list_ascii) in H. rewrite !string_of_list_ascii_of_string in H.
  apply (f_equal DecimalString.NilEmpty.uint_of_string) in H.
  rewrite !DecimalString.NilEmpty.usu in H. injection H.
  apply DecimalNat.Unsigned.to_uint_inj.
Qed.

Lemma split_at_underscore d1 d2 r1 r2 :
  (forall c, In c d1 -> c <> "_"%char) -> (forall c, In c d2 -> c <> "_"%char) ->
  d1 ++ "_"%char :: r1 = d2 ++ "_"%char :: r2 -> d1 = d2.
Proof.
  revert d2. induction d1 as [|a d1 IH]; intros [|b d2] H1 H2 H; simpl in H.
  - reflexivity.
  - injection H as Hb _. exfalso. apply (H2 b); [left; reflexivity|symmetry; exact Hb].
  - injection H as Ha _. exfalso. apply (H1 a); [left; reflexivity|exact Ha].
  - injection H as -> H. f_equal. apply IH; auto.
    + intros c Hc. apply H1. right. exact Hc.
    + intros c Hc. apply H2. right. exact Hc.
Qed.

(** The random suffix plays no part in telling two ids apart. *)
Lemma make_id_inj v i j h1 h2 : make_id v i h1 = make_id v j h2 -> i = j.
Proof.
  unfold make_id. intros H. apply app_inv_head in H. simpl in H. injection H as H.
  apply dec_inj. exact (split_at_underscore _ _ _ _ (dec_digits i) (dec_digits j) H).
Qed.

Lemma build_batch_spec v u uh segs : forall i,
  let '(documents, metadatas, ids) := build_batch v u uh i segs in
  documents = map ch_text segs /\ length metadatas = length segs /\
  (forall k c, nth_error segs k = Some c ->
     nth_error metadatas k =
       Some (mkMetadata v (match u with Some x => x | None => [] end)
               (ch_start c) (ch_duration c) (i + k))) /\
  ids = map (fun k => make_id v k (uh k)) (seq i (length segs)).
Proof.
  induction segs as [|c segs IH]; intros i; simpl.
  - split; [reflexivity|]. split; [reflexivity|]. split; [|reflexivity].
    intros [|k] c H; discriminate.
  - specialize (IH (S i)). destruct (build_batch v u uh (S i) segs) as [[ds ms] is].
    destruct IH as (Hd & Hm & Hk & Hi). split; [rewrite Hd; reflexivity|].
    split; [simpl; rewrite Hm; reflexivity|]. split; [|rewrite Hi; reflexivity].
    intros [|k] c' H; simpl in H |- *.
    + injection H as <-. rewrite Nat.add_0_r. reflexivity.
    + rewrite (Hk k c' H). do 2 f_equal. lia.
Qed.

Lemma collect_matches_some r docs0 idx f :
  (forall i, In i idx -> match_at r docs0 i = Some (f i)) ->
  collect_matches r docs0 idx = Some (map f idx).
Proof.
  induction idx as [|i idx IH]; intros H; simpl; [reflexivity|].
  rewrite (H i (or_introl eq_refl)), IH; [reflexivity|].
  intros j Hj. apply H. right. exact Hj.
Qed.

Lemma collect_matches_none r docs0 idx i :
  In i idx -> match_at r docs0 i = None -> collect_matches r docs0 idx = None.
Proof.
  induction idx as [|j idx IH]; intros Hi H; [destruct Hi|simpl].
  destruct Hi as [<-|Hi]; [rewrite H; reflexivity|].
  destruct (match_at r docs0 j); [rewrite (IH Hi H); reflexivity|reflexivity].
Qed.

Lemma map_nth_seq {A} (l : list A) d : forall n,
  (n <= length l)%nat -> map (fun i => nth i l d) (seq 0 n) = firstn n l.
Proof.
  induction l as [|x l IH]; intros [|n] H; simpl in *; try reflexivity; [lia|].
  rewrite <- seq_shift, map_map. f_equal. apply IH. lia.
Qed.

(** ** Lemmas on URL prefixes *)

(** [a] and [p] differ at a position both have. *)
Fixpoint clash (a p : str) : bool :=
  match a, p with
  | x :: a', y :: p' => negb (Ascii.eqb x y) || clash a' p'
  | _, _ => false
  end.

Lemma clash_starts a p t : clash a p = true -> starts_with a (p ++ t) = false.
Proof.
  revert p. induction a as [|x a IH]; intros [|y p] H; try discriminate.
  simpl in H |- *. apply orb_true_iff in H. destruct H as [H|H].
  - apply negb_true_iff in H. rewrite H. reflexivity.
  - rewrite (IH p H). apply andb_false_r.
Qed.

Lemma match_alts_clash alts s t :
  forallb (fun a => clash a s) alts = true -> match_alts alts (s ++ t) = None.
Proof.
  induction alts as [|a alts IH]; intros H; [reflexivity|].
  simpl in H. apply andb_true_iff in H. destruct H as [Ha H].
  simpl. rewrite (clash_starts a s t Ha). apply IH. exact H.
Qed.

(** No position of [p] starts an alternative, when [p] is followed by [k]
    and then anything. *)
Fixpoint no_match_before (p k : str) : bool :=
  match p with
  | [] => true
  | c :: p' => forallb (fun a => clash a (c :: p' ++ k)) url_prefixes && no_match_before p' k
  end.

Lemma search_id_skip p k t :
  no_match_before p k = true -> search_id (p ++ k ++ t) = search_id (k ++ t).
Proof.
  induction p as [|c p IH]; intros H; [reflexivity|].
  simpl in H. apply andb_true_iff in H. destruct H as [Hc H].
  rewrite search_id_eq. replace ((c :: p) ++ k ++ t) with ((c :: p ++ k) ++ t)
    by (simpl; rewrite app_assoc; reflexivity).
  rewrite (match_alts_clash url_prefixes (c :: p ++ k) t Hc). simpl.
  rewrite <- app_assoc. apply IH. exact H.
Qed.

Lemma match_alts_cons a more s : match_alts (a :: more) s =
  if starts_with a s then
    match take_id 11 (skipn (length a) s) with
    | Some g => Some g
    | None => match_alts more s
    end
  else match_alts more s.
Proof. reflexivity. Qed.

Lemma match_alts_hit before a more g post :
  forallb (fun b => clash b a) before = true -> valid_id g ->
  match_alts (before ++ a :: more) (a ++ g ++ post) = Some g.
Proof.
  intros Hb [Hl Hf]. induction before as [|b before IH].
  - rewrite app_nil_l, match_alts_cons.
    replace (starts_with a (a ++ g ++ post)) with true
      by (symmetry; apply starts_with_spec; exists (g ++ post); reflexivity).
    rewrite skipn_length_app, <- Hl, take_id_complete by exact Hf. reflexivity.
  - simpl in Hb. apply andb_true_iff in Hb. destruct Hb as [Hb1 Hb].
    rewrite <- app_comm_cons, match_alts_cons, (clash_starts b a (g ++ post) Hb1).
    apply IH. exact Hb.
Qed.

(** ** Claims *)

(** C6: [chunk_segments] maps the empty segment list to the empty list, for
    every [max_chunk_size] and [overlap_size]. *)
Theorem chunk_segments_empty (max_chunk_size overlap_size : Z) :
  chunk_segments [] max_chunk_size overlap_size = [].
Proof. reflexivity. Qed.

(** C5: on hello/world/foo with [max_chunk_size = 8] and [overlap_size = 0]:
    appending "world" to the buffer " hello" would overflow 8 characters, so
    the first chunk is "hello" starting at 0; there are at least two chunks and
    the last one has start 2, duration 1 and end 3. *)
Theorem chunk_segments_hello_world_foo :
  must_close 8 (space ++ s2l "hello"%string) (s2l "world"%string) = true /\
  (2 <= length (chunk_segments ex_segs 8 0))%nat /\
  (exists c rest, chunk_segments ex_segs 8 0 = c :: rest /\
     ch_text c = s2l "hello"%string /\ ch_start c = 0) /\
  (exists c, last (chunk_segments ex_segs 8 0) c = mkChunk (s2l "foo"%string) 2 1 3).
Proof.
  split; [vm_compute; reflexivity|].
  split; [vm_compute; repeat constructor|].
  split.
  - do 2 eexists. split; [vm_compute; reflexivity|]. split; reflexivity.
  - exists (mkChunk [] 0 0 0). vm_compute. reflexivity.
Qed.

(** C10: [chunk_segments] is total.  Whatever [max_chunk_size] and
    [overlap_size] (also [overlap_size >= max_chunk_size]), the step-by-step
    execution of the loop and of the overlap walk reaches the final state after
    finitely many steps, and returns the chunk list. *)
Theorem chunk_segments_terminates (segs : list segment) (max_chunk_size overlap_size : Z) :
  exists n, run max_chunk_size overlap_size n (minit segs) =
            MDone (chunk_segments segs max_chunk_size overlap_size).
Proof.
  destruct segs as [|s0 rest].
  - exists 0%nat. reflexivity.
  - apply run_loop.
Qed.

(** C1 (corrected): for [overlap_size >= 0], every chunk's text is at most
    [max_chunk_size] characters long, or else the chunk's folded segments are
    some segments [o] followed by one last segment [X] of the input, the text
    [o] contributes (each segment's text and a space) is at most
    [overlap_size] long, the chunk's text is that text, a space and [X]'s
    stripped text, stripped, and so it is at most [overlap_size + 1]
    characters longer than [X]'s stripped text.  The overlap seed is put in
    front of the next segment without a size test, so a chunk may exceed
    [max_chunk_size] even when no single segment does. *)
Theorem chunk_segments_size (segs : list segment) (max_chunk_size overlap_size : Z) :
  0 <= overlap_size ->
  forall c, In c (chunk_segments segs max_chunk_size overlap_size) ->
  len (ch_text c) <= max_chunk_size \/
  exists e o X, In e (chunk_trace segs max_chunk_size overlap_size) /\ cl_chunk e = c /\
    cl_segs e = o ++ [X] /\ In X segs /\ len (seed_text o) <= overlap_size /\
    ch_text c = strip (seed_text o ++ space ++ strip (seg_text X)) /\
    len (ch_text c) <= overlap_size + 1 + len (strip (seg_text X)).
Proof.
  intros Hov c Hc. unfold chunk_segments in Hc.
  apply in_map_iff in Hc. destruct Hc as [e [<- He]].
  pose proof (trace_size_ok max_chunk_size overlap_size segs Hov) as H.
  rewrite Forall_forall in H. destruct (H e He) as [Ht [Hl|(o & X & Hcs & HX & Hl & Hb)]].
  - left. rewrite Ht. pose proof (len_strip (cl_buffer e)). lia.
  - right. exists e, o, X. rewrite Ht, <- Hb.
    split; [exact He|]. split; [reflexivity|]. split; [exact Hcs|]. split; [exact HX|].
    split; [exact Hl|]. split; [reflexivity|].
    pose proof (len_strip (cl_buffer e)) as Hs. rewrite Hb in Hs |- *.
    rewrite !len_app, len_space in Hs. lia.
Qed.

(** C1: the theorem applied to the second chunk of the counterexample below. *)
Lemma chunk_segments_size_witness :
  let segs := [mkSegment (s2l "ab"%string) 0 1; mkSegment (s2l "abcdefgh"%string) 1 1] in
  let c := mkChunk (s2l "ab  abcdefgh"%string) 0 2 2 in
  In c (chunk_segments segs 10 5) /\
  (len (ch_text c) <= 10 \/
   exists e o X, In e (chunk_trace segs 10 5) /\ cl_chunk e = c /\
     cl_segs e = o ++ [X] /\ In X segs /\ len (seed_text o) <= 5 /\
     ch_text c = strip (seed_text o ++ space ++ strip (seg_text X)) /\
     len (ch_text c) <= 5 + 1 + len (strip (seg_text X))).
Proof.
  intros segs c.
  assert (Hin : In c (chunk_segments segs 10 5)) by (vm_compute; right; left; reflexivity).
  split; [exact Hin|]. exact (chunk_segments_size segs 10 5 ltac:(lia) c Hin).
Defined.

(** C1: counterexample.  With [max_chunk_size = 10] and [overlap_size = 5], the
    segments "ab" and "abcdefgh" (both shorter than 10) give the chunks "ab"
    and "ab  abcdefgh"; the second is 12 characters long. *)
Lemma chunk_segments_size_cex :
  let segs := [mkSegment (s2l "ab"%string) 0 1; mkSegment (s2l "abcdefgh"%string) 1 1] in
  Forall (fun s => len (seg_text s) <= 10) segs /\
  map ch_text (chunk_segments segs 10 5) = [s2l "ab"%string; s2l "ab  abcdefgh"%string] /\
  len (s2l "ab  abcdefgh"%string) = 12.
Proof.
  split; [repeat constructor; discriminate|].
  split; vm_compute; reflexivity.
Qed.

(** C3 (corrected): the concatenated chunk texts contain the stripped text of
    every input segment; hence, when some segment's text is not all
    whitespace, the chunk list is not empty.  (A segment's text is stripped
    before it is added, and a final buffer that is all whitespace is not
    emitted.) *)
Theorem chunk_segments_cover (segs : list segment) (max_chunk_size overlap_size : Z) :
  (forall s, In s segs ->
     sub (strip (seg_text s)) (concat (map ch_text (chunk_segments segs max_chunk_size overlap_size)))) /\
  ((exists s, In s segs /\ strip (seg_text s) <> []) ->
     chunk_segments segs max_chunk_size overlap_size <> []).
Proof.
  assert (Hcov : forall s, In s segs ->
     sub (strip (seg_text s)) (concat (map ch_text (chunk_segments segs max_chunk_size overlap_size)))).
  { intros s Hs. unfold chunk_segments, chunk_trace.
    destruct segs as [|s0 rest0] eqn:Hsegs; [destruct Hs|]. rewrite <- Hsegs in *.
    set (fin := fold_left (chunk_step max_chunk_size overlap_size) segs
                  (mkCstate [] [] (seg_start s0) [])).
    assert (H : cover_inv segs fin []).
    { apply (fold_inv max_chunk_size overlap_size (cover_inv segs));
        [intros; apply cover_inv_step; auto|].
      intros x Hx. left. exact Hx. }
    rewrite map_map. fold (chunk_texts (finish fin)).
    destruct (H s Hs) as [[]|[Hc|Hb]]; unfold finish;
      destruct (strip (current_chunk_text fin)) eqn:Es.
    - exact Hc.
    - rewrite chunk_texts_app. apply sub_app_l. exact Hc.
    - apply sub_strip_seg in Hb. rewrite Es in Hb. apply sub_nil in Hb. rewrite Hb.
      exists [], (chunk_texts (chunks fin)). reflexivity.
    - rewrite chunk_texts_app. apply sub_app_r. cbn [cl_chunk close_chunk ch_text].
      apply sub_strip_seg. exact Hb. }
  split; [exact Hcov|].
  intros (s & Hs & Hne) Hnil. apply Hne. apply sub_nil.
  specialize (Hcov s Hs). rewrite Hnil in Hcov. exact Hcov.
Qed.

(** C3: counterexample.  The one-segment list whose text is a single space is
    not empty, yet it gives no chunk. *)
Lemma chunk_segments_cover_cex :
  chunk_segments [mkSegment (s2l " "%string) 0 1] 500 50 = [].
Proof. vm_compute. reflexivity. Qed.

(** C4: every emitted chunk is closed from its buffer and its folded segments
    (overlap carry-over included): its text is the stripped buffer, its start
    the start of its first folded segment, its duration the sum of the folded
    segments' durations, and its end the last folded segment's start plus
    duration; there is at least one folded segment.  Consequently, for input
    with non-decreasing starts and non-negative durations, [end >= start]. *)
Theorem chunk_segments_closed (segs : list segment) (max_chunk_size overlap_size : Z) :
  map cl_chunk (chunk_trace segs max_chunk_size overlap_size) =
    chunk_segments segs max_chunk_size overlap_size /\
  (forall e, In e (chunk_trace segs max_chunk_size overlap_size) ->
     exists p r, cl_segs e = p :: r /\
       ch_text (cl_chunk e) = strip (cl_buffer e) /\
       ch_start (cl_chunk e) = seg_start p /\
       ch_duration (cl_chunk e) = sum_durations (cl_segs e) /\
       ch_end (cl_chunk e) = seg_start (last (p :: r) p) + seg_duration (last (p :: r) p)) /\
  (starts_sorted segs = true -> durations_nonneg segs = true ->
     forall c, In c (chunk_segments segs max_chunk_size overlap_size) -> ch_start c <= ch_end c).
Proof.
  unfold chunk_segments, chunk_trace.
  destruct segs as [|s0 rest0] eqn:Hsegs.
  { split; [reflexivity|]. split; [intros e []|intros _ _ c []]. }
  rewrite <- Hsegs.
  set (fin := fold_left (chunk_step max_chunk_size overlap_size) segs
                (mkCstate [] [] (seg_start s0) [])).
  assert (Hsh : shape_inv fin []).
  { apply (fold_inv max_chunk_size overlap_size shape_inv);
      [intros; apply shape_inv_step; auto|].
    split; [constructor|]. split; [|intros p r Hc; discriminate].
    intros _. split; [reflexivity|]. intros s r Hsr. rewrite Hsegs in Hsr.
    injection Hsr; intros; subst; reflexivity. }
  destruct Hsh as (Hw & Hnil & Hcons).
  assert (Hwf : Forall well_closed (finish fin)).
  { unfold finish. destruct (strip (current_chunk_text fin)) eqn:Es; auto.
    apply Forall_app. split; auto. constructor; auto.
    destruct (current_chunk_segments fin) as [|p r] eqn:Hcs.
    - destruct (Hnil eq_refl) as [Ht _]. rewrite Ht in Es. discriminate.
    - exists p, r. split; [reflexivity|]. cbn [cl_chunk cl_buffer cl_segs].
      rewrite (Hcons p r eq_refl). reflexivity. }
  rewrite Forall_forall in Hwf.
  assert (Hfields : forall e, In e (finish fin) ->
     exists p r, cl_segs e = p :: r /\
       ch_text (cl_chunk e) = strip (cl_buffer e) /\
       ch_start (cl_chunk e) = seg_start p /\
       ch_duration (cl_chunk e) = sum_durations (cl_segs e) /\
       ch_end (cl_chunk e) = seg_start (last (p :: r) p) + seg_duration (last (p :: r) p)).
  { intros e He. destruct (Hwf e He) as (p & r & Hs & Hc).
    exists p, r. rewrite Hc, Hs. repeat split.
    rewrite <- (last_cons_default p r (mkSegment [] 0 0) p). reflexivity. }
  split; [reflexivity|]. split; [exact Hfields|].
  intros Hsorted Hnonneg c Hc.
  assert (Ho : order_inv fin []).
  { apply (fold_inv max_chunk_size overlap_size order_inv);
      [intros; apply order_inv_step; auto|].
    split; [constructor|]. split; assumption. }
  destruct Ho as (Hoc & Hos & Hod). rewrite app_nil_r in Hos, Hod.
  apply in_map_iff in Hc. destruct Hc as [e [<- He]].
  assert (Hord : starts_sorted (cl_segs e) && durations_nonneg (cl_segs e) = true).
  { unfold finish in He. rewrite Forall_forall in Hoc.
    destruct (strip (current_chunk_text fin)); [apply Hoc; exact He|].
    apply in_app_or in He. destruct He as [He|[<-|[]]]; [apply Hoc; exact He|].
    cbn [cl_segs]. apply andb_true_iff. split; assumption. }
  destruct (Hfields e He) as (p & r & Hs & _ & -> & _ & ->).
  rewrite Hs in Hord. apply andb_true_iff in Hord. destruct Hord as [Hso Hdo].
  pose proof (starts_sorted_le_last p r p Hso).
  unfold durations_nonneg in Hdo. rewrite forallb_forall in Hdo.
  specialize (Hdo _ (last_In_cons p r p)). apply Z.leb_le in Hdo. lia.
Qed.

(** C2: for [overlap_size >= 0], every chunk but the first begins with an
    overlap seed made of whole trailing segments [o] of the previous chunk:
    its folded segments are [o] followed by at least one new segment, its
    buffer begins with the seed text of [o] (each segment's text followed by a
    space) and its text is that buffer stripped; the seed text is at most
    [overlap_size] characters long, and the backward walk stopped at the
    segment [p] just before [o] because [len(seed) + len(p.text)] reached
    [overlap_size]. *)
Theorem chunk_segments_overlap (segs : list segment) (max_chunk_size overlap_size : Z) :
  0 <= overlap_size ->
  forall i e1 e2,
  nth_error (chunk_trace segs max_chunk_size overlap_size) i = Some e1 ->
  nth_error (chunk_trace segs max_chunk_size overlap_size) (S i) = Some e2 ->
  exists o rest b,
    cl_segs e2 = o ++ rest /\ rest <> [] /\
    cl_buffer e2 = seed_text o ++ b /\ ch_text (cl_chunk e2) = strip (cl_buffer e2) /\
    (exists pre, cl_segs e1 = pre ++ o) /\
    len (seed_text o) <= overlap_size /\
    (forall pre p, cl_segs e1 = pre ++ p :: o ->
       overlap_size <= len (seed_text o) + len (seg_text p)).
Proof.
  intros Hov i e1 e2 H1 H2.
  assert (Hchain : chain overlap_size (chunk_trace segs max_chunk_size overlap_size)).
  { unfold chunk_trace. destruct segs as [|s0 rest0] eqn:Hsegs; [exact I|].
    rewrite <- Hsegs.
    set (fin := fold_left (chunk_step max_chunk_size overlap_size) segs
                  (mkCstate [] [] (seg_start s0) [])).
    assert (H : link_inv overlap_size fin []).
    { apply (fold_inv max_chunk_size overlap_size (link_inv overlap_size));
        [intros; apply link_inv_step; auto|].
      split; [exact I|]. intros l e He. destruct l; discriminate. }
    destruct H as [Hc Hl]. unfold finish.
    destruct (strip (current_chunk_text fin)); [exact Hc|].
    apply chain_snoc; [exact Hc|]. intros l' x Hx. apply close_seeded. apply (Hl l' x Hx). }
  destruct (chain_nth overlap_size _ Hchain i e1 e2 H1 H2)
    as (o & rest & b & Hs & Hr & Hb & Ht & (Hpre & Hlen & Hmax)).
  exists o, rest, b. repeat split; assumption.
Qed.

(** C7: [extract_video_id] returns the group of the leftmost match of the
    pattern (one of "v=", "/v/", "youtu.be/", "/embed/" followed by eleven
    characters of [[A-Za-z0-9_-]]), for every URL, and [None] exactly when
    the URL has no match; on the two URLs of the spec it returns
    "ssYt09bCgUY" and [None]. *)
Theorem extract_video_id_spec :
  (forall url g, extract_video_id url = Some g ->
     valid_id g /\
     exists pre a post, id_match url pre a g post /\
       forall pre' a' g' post', id_match url pre' a' g' post' -> (length pre <= length pre')%nat) /\
  (forall url, extract_video_id url = None <->
     forall pre a g post, ~ id_match url pre a g post) /\
  extract_video_id (s2l "https://www.youtube.com/watch?v=ssYt09bCgUY"%string)
    = Some (s2l "ssYt09bCgUY"%string) /\
  extract_video_id (s2l "not a url"%string) = None.
Proof.
  split; [|split; [|split; vm_compute; reflexivity]].
  - intros url g H. destruct (search_id_some url g H) as (pre & a & post & Hm & Hmin).
    split; [apply Hm|]. exists pre, a, post. split; assumption.
  - intros url. split; [apply search_id_none|].
    intros Hno. destruct (extract_video_id url) as [g|] eqn:E; [|reflexivity].
    destruct (search_id_some url g E) as (pre & a & post & Hm & _).
    exfalso. exact (Hno pre a g post Hm).
Qed.

(** C8: [get_youtube_transcript] returns a result and never raises.  Whenever
    its [success] is false the result carries an error message (and no
    transcript and no segments); and when the retrieval raises an exception
    with message [msg], the message is classified by substring search in
    [msg.lower()]: "disabled" first, then "no transcript" or "not found", then
    "unavailable", else the unexpected-error message followed by [msg]. *)
Theorem get_youtube_transcript_errors (fetch : str -> fetch_outcome) (video_url : str) :
  (success (get_youtube_transcript fetch video_url) = false ->
     exists e, get_youtube_transcript fetch video_url = mkFetchResult false None None (Some e)) /\
  (forall video_id msg,
     extract_video_id video_url = Some video_id -> fetch video_id = Raised msg ->
     exists e,
       get_youtube_transcript fetch video_url = mkFetchResult false None None (Some e) /\
       let m := lower msg in
       (str_contains (s2l "disabled"%string) m = true -> e = msg_disabled) /\
       (str_contains (s2l "disabled"%string) m = false ->
        str_contains (s2l "no transcript"%string) m || str_contains (s2l "not found"%string) m = true ->
        e = msg_not_found) /\
       (str_contains (s2l "disabled"%string) m = false ->
        str_contains (s2l "no transcript"%string) m || str_contains (s2l "not found"%string) m = false ->
        str_contains (s2l "unavailable"%string) m = true -> e = msg_unavailable) /\
       (str_contains (s2l "disabled"%string) m = false ->
        str_contains (s2l "no transcript"%string) m || str_contains (s2l "not found"%string) m = false ->
        str_contains (s2l "unavailable"%string) m = false -> e = msg_unexpected_prefix ++ msg)).
Proof.
  split.
  - unfold get_youtube_transcript.
    destruct (extract_video_id video_url) as [vid|]; [|intros _; eexists; reflexivity].
    destruct (fetch vid); [discriminate|intros _; eexists; reflexivity].
  - intros vid msg Hid Hf. exists (classify_error msg).
    unfold get_youtube_transcript. rewrite Hid, Hf. split; [reflexivity|].
    unfold classify_error. cbv zeta.
    split; [intros ->; reflexivity|]. split; [intros -> ->; reflexivity|].
    split; [intros -> -> ->; reflexivity|]. intros -> -> ->; reflexivity.
Qed.

(** C9: [store_transcript_for_rag] returns the fetch result unchanged when the
    fetch fails, calling neither the chunker nor the store.  When the fetch
    succeeds it chunks the fetched segments with [max_chunk_size = chunk_size]
    and [overlap_size = 50] and stores the chunks; if the store reports
    failure the report has success false, 0 chunks stored and the generic
    storage-failure message; otherwise it has the number of chunks stored, no
    error; both report the original number of segments. *)
Theorem store_transcript_for_rag_results (fetch : str -> fetch_outcome)
    (store_transcript : option str -> list chunk -> str -> bool) (video_url : str) (chunk_size : Z) :
  let result := get_youtube_transcript fetch video_url in
  (success result = false ->
     store_transcript_for_rag fetch store_transcript video_url chunk_size = (RagFetch result, [])) /\
  (success result = true ->
     exists segs, segments result = Some segs /\
     let video_id := extract_video_id video_url in
     let chunked := chunk_segments segs chunk_size 50 in
     snd (store_transcript_for_rag fetch store_transcript video_url chunk_size) =
       [CallChunk segs chunk_size; CallStore video_id chunked video_url] /\
     (store_transcript video_id chunked video_url = false ->
        fst (store_transcript_for_rag fetch store_transcript video_url chunk_size) =
          RagStored false video_id 0 (length segs) (Some msg_store_failed)) /\
     (store_transcript video_id chunked video_url = true ->
        fst (store_transcript_for_rag fetch store_transcript video_url chunk_size) =
          RagStored true video_id (length chunked) (length segs) None)).
Proof.
  intros result. unfold store_transcript_for_rag. fold result. split.
  - intros ->. reflexivity.
  - intros Hs. rewrite Hs. simpl negb. cbv iota.
    assert (Hsegs : exists segs, segments result = Some segs).
    { unfold result, get_youtube_transcript in Hs |- *.
      destruct (extract_video_id video_url) as [vid|]; [|discriminate].
      destruct (fetch vid); [eexists; reflexivity|discriminate]. }
    destruct Hsegs as [segs Hsegs]. exists segs. split; [exact Hsegs|].
    rewrite Hsegs. cbv zeta. split; [reflexivity|].
    split; intros Hst; rewrite Hst; reflexivity.
Qed.

(** C2: the theorem applied to the first two chunks of hello/world/foo with
    [max_chunk_size = 12] and [overlap_size = 10], where the second chunk
    carries "world" over. *)
Lemma chunk_segments_overlap_witness :
  exists e1 e2,
  nth_error (chunk_trace ex_segs 12 10) 0 = Some e1 /\
  nth_error (chunk_trace ex_segs 12 10) 1 = Some e2 /\
  exists o rest b,
    cl_segs e2 = o ++ rest /\ rest <> [] /\
    cl_buffer e2 = seed_text o ++ b /\ ch_text (cl_chunk e2) = strip (cl_buffer e2) /\
    (exists pre, cl_segs e1 = pre ++ o) /\
    len (seed_text o) <= 10 /\
    (forall pre p, cl_segs e1 = pre ++ p :: o -> 10 <= len (seed_text o) + len (seg_text p)).
Proof.
  do 2 eexists. split; [vm_compute; reflexivity|]. split; [vm_compute; reflexivity|].
  apply (chunk_segments_overlap ex_segs 12 10 ltac:(lia) 0); vm_compute; reflexivity.
Defined.

(** ** Further properties of the code *)

(** [chunk_segments] never returns more chunks than it received segments. *)
Theorem chunk_segments_length_le (segs : list segment) (max_chunk_size overlap_size : Z) :
  (length (chunk_segments segs max_chunk_size overlap_size) <= length segs)%nat.
Proof. unfold chunk_segments. rewrite length_map. apply trace_length. Qed.

(** Each chunk is built from a non-empty run of consecutive input segments:
    its start is the first one's start, its duration the sum of their
    durations and its end the last one's start plus duration. *)
Theorem chunk_segments_contiguous (segs : list segment) (max_chunk_size overlap_size : Z) :
  forall c, In c (chunk_segments segs max_chunk_size overlap_size) ->
  exists pre p r post, segs = pre ++ (p :: r) ++ post /\
    ch_start c = seg_start p /\ ch_duration c = sum_durations (p :: r) /\
    ch_end c = last_end (p :: r).
Proof.
  intros c Hc. unfold chunk_segments in Hc. apply in_map_iff in Hc. destruct Hc as [e [<- He]].
  destruct (proj1 (trace_runs segs max_chunk_size overlap_size) e He) as (a & b & Hs).
  pose proof (trace_well_closed segs max_chunk_size overlap_size) as Hw.
  rewrite Forall_forall in Hw.
  destruct (well_closed_fields e (Hw e He)) as (p & r & Hcs & _ & H1 & H2 & H3).
  exists a, p, r, b. rewrite <- Hcs. split; [exact Hs|]. split; [exact H1|]. split; assumption.
Qed.

(** For input whose start times never decrease, the chunks' start times never
    decrease either, whatever [max_chunk_size] and [overlap_size]. *)
Theorem chunk_segments_starts_sorted (segs : list segment) (max_chunk_size overlap_size : Z) :
  starts_sorted segs = true ->
  forall i c1 c2,
  nth_error (chunk_segments segs max_chunk_size overlap_size) i = Some c1 ->
  nth_error (chunk_segments segs max_chunk_size overlap_size) (S i) = Some c2 ->
  ch_start c1 <= ch_start c2.
Proof.
  intros Hs i c1 c2 H1 H2. unfold chunk_segments in H1, H2. rewrite nth_error_map in H1, H2.
  destruct (nth_error (chunk_trace segs max_chunk_size overlap_size) i) as [e1|] eqn:E1;
    [|discriminate].
  destruct (nth_error (chunk_trace segs max_chunk_size overlap_size) (S i)) as [e2|] eqn:E2;
    [|discriminate].
  simpl in H1, H2. injection H1 as <-. injection H2 as <-.
  destruct (proj2 (trace_runs segs max_chunk_size overlap_size) i e1 e2 E1 E2)
    as (a & o & r & post & q & Hsegs & Hw & Hq).
  pose proof (trace_well_closed segs max_chunk_size overlap_size) as Hwc.
  rewrite Forall_forall in Hwc.
  destruct (well_closed_fields e1 (Hwc e1 (nth_error_In _ _ E1))) as (p1 & r1 & Hc1 & _ & -> & _).
  destruct (well_closed_fields e2 (Hwc e2 (nth_error_In _ _ E2))) as (p2 & r2 & Hc2 & _ & -> & _).
  rewrite Hc1 in Hsegs, Hq. rewrite Hsegs in Hs. apply starts_sorted_app_r in Hs.
  apply (sorted_head_le p1 (r1 ++ r ++ post)); [exact Hs|].
  assert (Hp2 : In p2 (o ++ r)) by (rewrite <- Hw, Hc2; left; reflexivity).
  change (In p2 ((p1 :: r1) ++ r ++ post)). apply in_or_app.
  apply in_app_or in Hp2. destruct Hp2 as [Hp2|Hp2].
  - left. rewrite Hq. apply in_or_app. right. exact Hp2.
  - right. apply in_or_app. left. exact Hp2.
Qed.

(** With [overlap_size <= 0] nothing is carried over: the input is the
    concatenation of the chunks' runs of segments, in order, followed by a
    (possibly empty) tail of segments whose text strips to nothing, which is
    dropped.  Each chunk's text is the stripped concatenation of
    [" " + s.strip()] over its run, its start the run's first start, its
    duration the run's total and its end the run's last end. *)
Theorem chunk_segments_partition (segs : list segment) (max_chunk_size overlap_size : Z) :
  overlap_size <= 0 ->
  exists runs tail,
    segs = concat runs ++ tail /\
    Forall (fun s => strip (seg_text s) = []) tail /\
    Forall2 (fun w c => exists p r, w = p :: r /\
               ch_text c = strip (buf_of w) /\ ch_start c = seg_start p /\
               ch_duration c = sum_durations w /\ ch_end c = last_end w)
      runs (chunk_segments segs max_chunk_size overlap_size).
Proof.
  intros Hov.
  pose proof (trace_well_closed segs max_chunk_size overlap_size) as Hwc.
  unfold chunk_segments. unfold chunk_trace in Hwc |- *.
  destruct segs as [|s0 rest0] eqn:Hsegs.
  { exists [], []. split; [reflexivity|]. split; constructor. }
  rewrite <- Hsegs in *.
  set (fin := fold_left (chunk_step max_chunk_size overlap_size) segs
                (mkCstate [] [] (seg_start s0) [])) in *.
  assert (H : part_inv segs fin []).
  { apply (fold_inv max_chunk_size overlap_size (part_inv segs));
      [intros; apply part_inv_step; auto|].
    split; [reflexivity|]. split; [constructor|reflexivity]. }
  destruct H as (Hs & Hb & Ht).
  assert (Hrel : forall l, Forall well_closed l -> Forall (fun e => cl_buffer e = buf_of (cl_segs e)) l ->
    Forall2 (fun w c => exists p r, w = p :: r /\
               ch_text c = strip (buf_of w) /\ ch_start c = seg_start p /\
               ch_duration c = sum_durations w /\ ch_end c = last_end w)
      (map cl_segs l) (map cl_chunk l)).
  { induction l as [|e l IH]; intros Hw Hbuf; [constructor|].
    inversion Hw; inversion Hbuf; subst. constructor; [|apply IH; assumption].
    destruct (well_closed_fields e ltac:(assumption)) as (p & r & Hc & Q1 & Q2 & Q3 & Q4).
    exists p, r. rewrite <- Hc. split; [reflexivity|]. split; [|split; [exact Q2|split; assumption]].
    rewrite Q1. f_equal. assumption. }
  destruct (finish_cases fin) as [[Hf Hnil]|Hf]; rewrite Hf in Hwc |- *.
  - exists (map cl_segs (chunks fin)), (current_chunk_segments fin).
    split; [rewrite app_nil_r in Hs; exact Hs|]. split.
    + apply strip_buf_of_nil. rewrite <- Ht. exact Hnil.
    + apply Hrel; assumption.
  - exists (map cl_segs (finish fin)), []. rewrite Hf. split; [|split; [constructor|]].
    + rewrite map_app, concat_app, app_nil_r. simpl. rewrite !app_nil_r in *. exact Hs.
    + apply Hrel; [exact Hwc|]. apply Forall_app. split; [exact Hb|]. constructor; [exact Ht|constructor].
Qed.

(** When the space-prefixed stripped texts of all segments fit in
    [max_chunk_size] characters, nothing is closed early: the result is a
    single chunk holding the whole transcript (or nothing, if every text is
    whitespace). *)
Theorem chunk_segments_fits (segs : list segment) (s0 : segment) (rest : list segment)
    (max_chunk_size overlap_size : Z) :
  segs = s0 :: rest -> len (buf_of segs) <= max_chunk_size ->
  chunk_segments segs max_chunk_size overlap_size =
    match strip (buf_of segs) with
    | [] => []
    | _ :: _ => [mkChunk (strip (buf_of segs)) (seg_start s0) (sum_durations segs) (last_end segs)]
    end.
Proof.
  intros -> H. unfold chunk_segments, chunk_trace.
  pose proof (fold_fits max_chunk_size overlap_size (seg_start s0) (s0 :: rest) [] H) as F.
  change (buf_of []) with (@nil ascii) in F. rewrite !app_nil_l in F. rewrite F. unfold finish.
  cbn [current_chunk_text chunks current_chunk_start current_chunk_segments app].
  destruct (strip (buf_of (s0 :: rest))) eqn:Es; [reflexivity|].
  cbn [map cl_chunk]. unfold close_chunk. rewrite Es. reflexivity.
Qed.

(** [extract_video_id] gives back the id of the three usual URL shapes,
    whatever follows the id. *)
Theorem extract_video_id_standard_urls (g rest : str) :
  valid_id g ->
  extract_video_id (s2l "https://www.youtube.com/watch?v="%string ++ g ++ rest) = Some g /\
  extract_video_id (s2l "https://youtu.be/"%string ++ g ++ rest) = Some g /\
  extract_video_id (s2l "https://www.youtube.com/embed/"%string ++ g ++ rest) = Some g.
Proof.
  intros Hg. unfold extract_video_id. split; [|split].
  - change (s2l "https://www.youtube.com/watch?v="%string)
      with (s2l "https://www.youtube.com/watch?"%string ++ s2l "v="%string).
    rewrite <- app_assoc, search_id_skip by (vm_compute; reflexivity).
    rewrite search_id_eq.
    change url_prefixes with
      ([] ++ s2l "v="%string :: [s2l "/v/"%string; s2l "youtu.be/"%string; s2l "/embed/"%string]).
    rewrite (match_alts_hit [] _ _ g rest eq_refl Hg). reflexivity.
  - change (s2l "https://youtu.be/"%string)
      with (s2l "https://"%string ++ s2l "youtu.be/"%string).
    rewrite <- app_assoc, search_id_skip by (vm_compute; reflexivity).
    rewrite search_id_eq.
    change url_prefixes with
      ([s2l "v="%string; s2l "/v/"%string] ++ s2l "youtu.be/"%string :: [s2l "/embed/"%string]).
    rewrite (match_alts_hit [s2l "v="%string; s2l "/v/"%string] (s2l "youtu.be/"%string)
               [s2l "/embed/"%string] g rest eq_refl Hg).
    reflexivity.
  - change (s2l "https://www.youtube.com/embed/"%string)
      with (s2l "https://www.youtube.com"%string ++ s2l "/embed/"%string).
    rewrite <- app_assoc, search_id_skip by (vm_compute; reflexivity).
    rewrite search_id_eq.
    change url_prefixes with
      ([s2l "v="%string; s2l "/v/"%string; s2l "youtu.be/"%string] ++ s2l "/embed/"%string :: []).
    rewrite (match_alts_hit [s2l "v="%string; s2l "/v/"%string; s2l "youtu.be/"%string]
               (s2l "/embed/"%string) [] g rest eq_refl Hg).
    reflexivity.
Qed.

(** For a URL in which the pattern does not occur, [get_youtube_transcript]
    returns the invalid-URL error whatever the transcript service would do,
    and [store_transcript_for_rag] returns that result without chunking or
    storing anything. *)
Theorem get_youtube_transcript_invalid_url (fetch : str -> fetch_outcome)
    (store_transcript : option str -> list chunk -> str -> bool) (video_url : str) (chunk_size : Z) :
  (forall pre a g post, ~ id_match video_url pre a g post) ->
  get_youtube_transcript fetch video_url = mkFetchResult false None None (Some msg_invalid) /\
  store_transcript_for_rag fetch store_transcript video_url chunk_size =
    (RagFetch (mkFetchResult false None None (Some msg_invalid)), []).
Proof.
  intros H.
  assert (E : extract_video_id video_url = None).
  { destruct (extract_video_id video_url) as [g|] eqn:E; [|reflexivity].
    destruct (search_id_some video_url g E) as (pre & a & post & Hm & _).
    exfalso. exact (H pre a g post Hm). }
  unfold store_transcript_for_rag, get_youtube_transcript. rewrite E. split; reflexivity.
Qed.

(** A storage report of [store_transcript_for_rag] always names the video id
    extracted from the URL, whose transcript was fetched; the number of
    chunks stored never exceeds the number of original segments. *)
Theorem store_transcript_for_rag_report (fetch : str -> fetch_outcome)
    (store_transcript : option str -> list chunk -> str -> bool) (video_url : str) (chunk_size : Z)
    ok vid stored orig err calls :
  store_transcript_for_rag fetch store_transcript video_url chunk_size =
    (RagStored ok vid stored orig err, calls) ->
  exists video_id segs, vid = Some video_id /\ extract_video_id video_url = Some video_id /\
    fetch video_id = Fetched segs /\ orig = length segs /\ (stored <= orig)%nat.
Proof.
  unfold store_transcript_for_rag, get_youtube_transcript.
  destruct (extract_video_id video_url) as [video_id|] eqn:E; [|discriminate].
  destruct (fetch video_id) as [segs|msg] eqn:F; [|discriminate].
  cbn [success negb segments]. intros H. injection H as <- <- <- <- <- <-.
  exists video_id, segs. split; [reflexivity|]. split; [reflexivity|]. split; [exact F|].
  split; [reflexivity|].
  destruct (store_transcript _ _ _); [|lia].
  pose proof (trace_length segs chunk_size 50). unfold chunk_segments. rewrite length_map. lia.
Qed.

(** [store_transcript] hands [collection.add] one document per segment, its
    text, in order, and at the same position a metadata record with the video
    id, the URL (or the empty string when none is given), the segment's start
    and duration, and [segment_index] equal to that position; the method
    returns what [add] reports. *)
Theorem store_transcript_batch (add : list str -> list metadata -> list str -> bool)
    (uuid_hex : nat -> str) (video_id : str) (segments : list chunk) (video_url : option str) :
  let '(documents, metadatas, ids) := build_batch video_id video_url uuid_hex 0 segments in
  store_transcript add uuid_hex video_id segments video_url = add documents metadatas ids /\
  documents = map ch_text segments /\
  length metadatas = length segments /\
  (forall i c, nth_error segments i = Some c ->
     nth_error metadatas i =
       Some (mkMetadata video_id (match video_url with Some u => u | None => [] end)
               (ch_start c) (ch_duration c) i)).
Proof.
  unfold store_transcript.
  pose proof (build_batch_spec video_id video_url uuid_hex segments 0) as H.
  destruct (build_batch video_id video_url uuid_hex 0 segments) as [[documents metadatas] ids].
  destruct H as (Hd & Hm & Hk & _).
  split; [reflexivity|]. split; [exact Hd|]. split; [exact Hm|]. exact Hk.
Qed.

(** The ids [store_transcript] builds are pairwise distinct and one per
    segment, whatever the random [uuid4] suffixes are: the index between the
    two underscores already tells them apart. *)
Theorem store_transcript_ids_distinct (video_id : str) (video_url : option str)
    (uuid_hex : nat -> str) (segments : list chunk) :
  let '(_, _, ids) := build_batch video_id video_url uuid_hex 0 segments in
  length ids = length segments /\ NoDup ids.
Proof.
  pose proof (build_batch_spec video_id video_url uuid_hex segments 0) as H.
  destruct (build_batch video_id video_url uuid_hex 0 segments) as [[documents metadatas] ids].
  destruct H as (_ & _ & _ & ->). split; [rewrite length_map, length_seq; reflexivity|].
  apply NoDup_map_NoDup_ForallPairs; [|apply seq_NoDup].
  intros i j _ _. apply make_id_inj.
Qed.

(** When the query returns a first row of documents, a first row of
    metadatas at least as long, and (if distances are returned) a first row of
    distances at least as long, [search] returns one match per document of
    that row, in order, with the metadata and distance at the same position;
    the distance is [None] when [results["distances"]] is [None] or empty. *)
Theorem search_matches_rows (results : query_result) (docs0 : list str) (rows : list (list str))
    (metas0 : list metadata) (mrows : list (list metadata)) :
  qr_documents results = docs0 :: rows ->
  qr_metadatas results = metas0 :: mrows ->
  (length docs0 <= length metas0)%nat ->
  (forall dists0 drows, qr_distances results = Some (dists0 :: drows) ->
     (length docs0 <= length dists0)%nat) ->
  exists ms, search_matches results = Some ms /\
    map m_text ms = docs0 /\
    map m_metadata ms = firstn (length docs0) metas0 /\
    map m_distance ms =
      match qr_distances results with
      | Some (dists0 :: _) => map Some (firstn (length docs0) dists0)
      | _ => repeat None (length docs0)
      end.
Proof.
  intros Hd Hm Hlm Hdist.
  set (dmd := mkMetadata [] [] 0 0 0).
  set (dist := fun i => match qr_distances results with
                        | Some (dists0 :: _) => Some (nth i dists0 0)
                        | _ => None
                        end).
  exists (map (fun i => mkMatch (nth i docs0 []) (nth i metas0 dmd) (dist i))
            (seq 0 (length docs0))).
  split; [|split; [|split]].
  - unfold search_matches. rewrite Hd. apply collect_matches_some.
    intros i Hi. apply in_seq in Hi.
    unfold match_at. rewrite (nth_error_nth' docs0 [] (n:=i) ltac:(lia)), Hm. cbn [nth_error].
    rewrite (nth_error_nth' metas0 dmd (n:=i) ltac:(lia)). unfold dist.
    destruct (qr_distances results) as [[|dists0 drows]|] eqn:Ed; try reflexivity.
    specialize (Hdist dists0 drows eq_refl).
    rewrite (nth_error_nth' dists0 0 (n:=i) ltac:(lia)). reflexivity.
  - rewrite map_map. cbn [m_text]. rewrite map_nth_seq, firstn_all; reflexivity.
  - rewrite map_map. cbn [m_metadata]. apply map_nth_seq. exact Hlm.
  - rewrite map_map. cbn [m_distance]. unfold dist.
    destruct (qr_distances results) as [[|dists0 drows]|] eqn:Ed;
      try (rewrite map_const, length_seq; reflexivity).
    rewrite <- (map_map (fun i => nth i dists0 0) Some). f_equal.
    apply map_nth_seq. exact (Hdist dists0 drows eq_refl).
Qed.

(** [search] raises [IndexError] when the query returns no row of documents,
    or when its first row of metadatas (a missing row counts as empty) is
    shorter than its first row of documents, or when distances are returned
    and their first row is shorter than the first row of documents. *)
Theorem search_matches_index_error (results : query_result) :
  match qr_documents results with
  | [] => True
  | docs0 :: _ =>
      (length (hd [] (qr_metadatas results)) < length docs0)%nat \/
      (exists dists0 drows, qr_distances results = Some (dists0 :: drows) /\
         (length dists0 < length docs0)%nat)
  end ->
  search_matches results = None.
Proof.
  unfold search_matches. destruct (qr_documents results) as [|docs0 rows]; [reflexivity|].
  intros [H|(dists0 & drows & Ed & H)].
  - apply (collect_matches_none _ _ _ (length (hd [] (qr_metadatas results))));
      [apply in_seq; lia|].
    unfold match_at.
    rewrite (nth_error_nth' docs0 [] H).
    destruct (qr_metadatas results) as [|metas0 mrows]; cbn [nth_error hd] in *; [reflexivity|].
    rewrite (proj2 (nth_error_None metas0 (length metas0)) (le_n _)). reflexivity.
  - apply (collect_matches_none _ _ _ (length dists0)); [apply in_seq; lia|].
    unfold match_at. rewrite (nth_error_nth' docs0 [] H).
    destruct (nth_error (qr_metadatas results) 0) as [metas0|]; [|reflexivity].
    destruct (nth_error metas0 (length dists0)); [|reflexivity].
    rewrite Ed, (proj2 (nth_error_None dists0 (length dists0)) (le_n _)). reflexivity.
Qed.

(** ** Witnesses of the further properties *)

(** The second chunk of hello/world/foo (limit 8, no overlap) is the run
    made of "world" alone. *)
Lemma chunk_segments_contiguous_witness :
  In (mkChunk (s2l "world"%string) 1 1 2) (chunk_segments ex_segs 8 0) /\
  exists pre p r post, ex_segs = pre ++ (p :: r) ++ post /\
    ch_start (mkChunk (s2l "world"%string) 1 1 2) = seg_start p /\
    ch_duration (mkChunk (s2l "world"%string) 1 1 2) = sum_durations (p :: r) /\
    ch_end (mkChunk (s2l "world"%string) 1 1 2) = last_end (p :: r).
Proof.
  split; [vm_compute; right; left; reflexivity|].
  apply (chunk_segments_contiguous ex_segs 8 0). vm_compute. right. left. reflexivity.
Defined.

(** hello/world/foo with limit 12 and overlap 10: the second chunk starts
    with the carried-over "world". *)
Lemma chunk_segments_starts_sorted_witness :
  starts_sorted ex_segs = true /\
  exists c1 c2,
    nth_error (chunk_segments ex_segs 12 10) 0 = Some c1 /\
    nth_error (chunk_segments ex_segs 12 10) 1 = Some c2 /\
    ch_start c1 <= ch_start c2.
Proof.
  split; [reflexivity|].
  do 2 eexists. split; [vm_compute; reflexivity|]. split; [vm_compute; reflexivity|].
  apply (chunk_segments_starts_sorted ex_segs 12 10 eq_refl 0); vm_compute; reflexivity.
Defined.

(** hello/world/foo followed by a blank segment, limit 8, no overlap. *)
Lemma chunk_segments_partition_witness :
  0 <= 0 /\
  exists runs tail,
    ex_segs ++ [mkSegment (s2l " "%string) 3 1] = concat runs ++ tail /\
    Forall (fun s => strip (seg_text s) = []) tail /\
    Forall2 (fun w c => exists p r, w = p :: r /\
               ch_text c = strip (buf_of w) /\ ch_start c = seg_start p /\
               ch_duration c = sum_durations w /\ ch_end c = last_end w)
      runs (chunk_segments (ex_segs ++ [mkSegment (s2l " "%string) 3 1]) 8 0).
Proof.
  split; [lia|]. apply (chunk_segments_partition _ 8 0). lia.
Defined.

Lemma chunk_segments_fits_witness :
  ex_segs = mkSegment (s2l "hello"%string) 0 1 :: tl ex_segs /\
  len (buf_of ex_segs) <= 100 /\
  chunk_segments ex_segs 100 50 =
    match strip (buf_of ex_segs) with
    | [] => []
    | _ :: _ => [mkChunk (strip (buf_of ex_segs)) 0 (sum_durations ex_segs) (last_end ex_segs)]
    end.
Proof.
  split; [reflexivity|]. split; [apply Z.leb_le; vm_compute; reflexivity|].
  apply (chunk_segments_fits ex_segs (mkSegment (s2l "hello"%string) 0 1) (tl ex_segs) 100 50).
  - reflexivity.
  - apply Z.leb_le. vm_compute. reflexivity.
Defined.

Lemma extract_video_id_standard_urls_witness :
  valid_id (s2l "ssYt09bCgUY"%string) /\
  extract_video_id (s2l "https://www.youtube.com/watch?v="%string ++ s2l "ssYt09bCgUY"%string
                      ++ s2l "&t=42s"%string) = Some (s2l "ssYt09bCgUY"%string) /\
  extract_video_id (s2l "https://youtu.be/"%string ++ s2l "ssYt09bCgUY"%string
                      ++ s2l "&t=42s"%string) = Some (s2l "ssYt09bCgUY"%string) /\
  extract_video_id (s2l "https://www.youtube.com/embed/"%string ++ s2l "ssYt09bCgUY"%string
                      ++ s2l "&t=42s"%string) = Some (s2l "ssYt09bCgUY"%string).
Proof.
  split; [split; reflexivity|].
  apply extract_video_id_standard_urls. split; reflexivity.
Defined.

Lemma get_youtube_transcript_invalid_url_witness :
  get_youtube_transcript (fun _ => Fetched ex_segs) (s2l "not a url"%string) =
    mkFetchResult false None None (Some msg_invalid) /\
  store_transcript_for_rag (fun _ => Fetched ex_segs) (fun _ _ _ => true) (s2l "not a url"%string) 500 =
    (RagFetch (mkFetchResult false None None (Some msg_invalid)), []).
Proof.
  apply get_youtube_transcript_invalid_url. apply search_id_none. vm_compute. reflexivity.
Defined.

Lemma store_transcript_for_rag_report_witness :
  exists ok vid stored orig err calls,
    store_transcript_for_rag (fun _ => Fetched ex_segs) (fun _ _ _ => true)
      (s2l "https://www.youtube.com/watch?v=ssYt09bCgUY"%string) 8 =
      (RagStored ok vid stored orig err, calls) /\
    exists video_id segs, vid = Some video_id /\
      extract_video_id (s2l "https://www.youtube.com/watch?v=ssYt09bCgUY"%string) = Some video_id /\
      (fun _ => Fetched ex_segs) video_id = Fetched segs /\ orig = length segs /\ (stored <= orig)%nat.
Proof.
  do 6 eexists. split; [vm_compute; reflexivity|].
  eapply (store_transcript_for_rag_report (fun _ => Fetched ex_segs) (fun _ _ _ => true) _ 8).
  vm_compute. reflexivity.
Defined.

Lemma search_matches_rows_witness :
  let md := mkMetadata (s2l "ssYt09bCgUY"%string) [] 0 1 0 in
  let results := mkQueryResult [[s2l "a"%string; s2l "b"%string]] [[md; md]] (Some [[1; 2]]) in
  exists ms, search_matches results = Some ms /\
    map m_text ms = [s2l "a"%string; s2l "b"%string] /\
    map m_metadata ms = firstn 2 [md; md] /\
    map m_distance ms = map Some (firstn 2 [1; 2]).
Proof.
  intros md results.
  apply (search_matches_rows results [s2l "a"%string; s2l "b"%string] [] [md; md] []);
    [reflexivity|reflexivity|simpl; lia|].
  intros dists0 drows H. injection H as <- <-. simpl. lia.
Defined.

Lemma search_matches_index_error_witness :
  search_matches (mkQueryResult [[s2l "a"%string]] [] None) = None.
Proof. apply search_matches_index_error. simpl. left. lia. Defined.
